(** * Navigation and task coordination of the subiquity text UI

    A shallow embedding of [subiquitycore/tui.py] (the navigation engine
    [_move_screen] / [make_view_for_controller], the progress indication
    wrapper [_wait_with_indication] with the waits and moves built on
    it, the rich mode and the foreground commands), of
    [subiquity/server/controller.py] and of the [SingleInstanceTask]
    scenario exercised by [subiquitycore/tests/test_async_helpers.py],
    with the properties the specification states about them and
    further properties of the code. *)

From Stdlib Require Import ZArith NArith List String Bool Lia.
Import ListNotations.

Set Implicit Arguments.

(** ** What a Python call can do: return or raise *)

(** The objects that the modelled code raises, split the way the
    [except] clauses of [_move_screen] split them. *)
Inductive Raised : Type :=
| Skip                       (* subiquitycore.tuicontroller.Skip *)
| Exc (what : string)        (* any other instance of [Exception] *)
| BaseExc (what : string).   (* a [BaseException] outside [Exception],
                                e.g. asyncio.CancelledError *)

Inductive Outcome (A : Type) : Type :=
| Return (a : A)
| Raise (e : Raised).

Arguments Return {A} a.
Arguments Raise {A} e.

(** ** The navigation engine *)

Module Navigation.

Open Scope string_scope.
Open Scope list_scope.
Open Scope Z_scope.

(** [make_view_for_controller] answers a [BaseView] or a callable that
    builds one. *)
Inductive View : Type :=
| BaseView (ident : string)
| ViewFactory (ident : string).

(** What [new.make_ui()] hands back: a view, or a coroutine that
    [make_view_for_controller] awaits. *)
Inductive MaybeView : Type :=
| Plain (v : View)
| Coroutine (awaited : Outcome View).

(** A stage.  The engine only reads its name and calls [make_ui],
    [context.enter], [context.exit] and [end_ui] on it. *)
Record Controller : Type := {
  name : string;
  make_ui : Outcome MaybeView
}.

(** Calls that leave the engine, in the order they are made. *)
Inductive Event : Type :=
| ContextEnter (ctrl msg : string)   (* ctrl.context.enter(msg) *)
| ContextExit (ctrl msg : string)    (* ctrl.context.exit(msg) *)
| EndUi (ctrl : string)              (* ctrl.end_ui() *)
| MakeUi (ctrl : string)             (* ctrl.make_ui() *)
| AppExit.                           (* self.exit() *)

(** [self.controllers]: the ordered stages and the cursor. *)
Record ControllerSet : Type := {
  instances : list Controller;
  index : Z
}.

(** The part of [TuiApplication] that navigation reads and writes. *)
Record TuiApplication : Type := {
  opts_screens : list string;          (* self.opts.screens *)
  controllers : ControllerSet;         (* self.controllers *)
  cur_screen : option Controller;      (* self.cur_screen *)
  events : list Event                  (* calls made so far *)
}.

Definition set_index (i : Z) (app : TuiApplication) : TuiApplication :=
  {| opts_screens := opts_screens app;
     controllers := {| instances := instances (controllers app); index := i |};
     cur_screen := cur_screen app;
     events := events app |}.

Definition set_cur_screen (c : option Controller) (app : TuiApplication)
  : TuiApplication :=
  {| opts_screens := opts_screens app;
     controllers := controllers app;
     cur_screen := c;
     events := events app |}.

Definition emit (e : Event) (app : TuiApplication) : TuiApplication :=
  {| opts_screens := opts_screens app;
     controllers := controllers app;
     cur_screen := cur_screen app;
     events := events app ++ [e] |}.

(** [len(self.controllers.instances)] *)
Definition len (app : TuiApplication) : Z :=
  Z.of_nat (List.length (instances (controllers app))).

(** Modelled from the spec: [ControllerSet.cur]
    (subiquitycore/controllerset.py is not among the sources): the stage
    at the cursor, [None] when the cursor is outside the sequence. *)
Definition cur (app : TuiApplication) : option Controller :=
  let i := index (controllers app) in
  if (i <? 0) || (len app <=? i) then None
  else nth_error (instances (controllers app)) (Z.to_nat i).

(** Modelled from the spec: [Application.exit] (subiquitycore/core.py is
    not among the sources): the external termination signal, here the
    recorded call. *)
Definition exit (app : TuiApplication) : TuiApplication := emit AppExit app.

(** [new.name not in self.opts.screens] *)
Definition not_in_screens (n : string) (screens : list string) : bool :=
  negb (existsb (String.eqb n) screens).

(** [bool(self.opts.screens)]: a non-empty list is true. *)
Definition truthy (screens : list string) : bool :=
  match screens with [] => false | _ :: _ => true end.

(** [TuiApplication.make_view_for_controller].  [new] is
    [self.controllers.cur]; on [None] the attribute access [new.context]
    raises AttributeError. *)
Definition make_view_for_controller (new : option Controller)
  (app : TuiApplication) : Outcome View * TuiApplication :=
  match new with
  | None => (Raise (Exc "AttributeError"), app)
  | Some new =>
    let app := emit (ContextEnter (name new) "starting UI") app in
    if truthy (opts_screens app) && not_in_screens (name new) (opts_screens app)
    then (Raise Skip, app)
    else
      let app := emit (MakeUi (name new)) app in
      let view :=
        match make_ui new with
        | Return (Plain v) => Return v
        | Return (Coroutine awaited) => awaited
        | Raise e => Raise e
        end in
      match view with
      | Raise Skip =>
        (Raise Skip, emit (ContextExit (name new) "(skipped)") app)
      | Raise e => (Raise e, app)
      | Return v => (Return v, set_cur_screen (Some new) app)
      end
  end.

(** The [while True] loop of [_move_screen]; [cur_index] is the cursor
    recorded before the loop.  [None] means the fuel ran out before the
    loop left. *)
Fixpoint move_loop (fuel : nat) (increment cur_index : Z)
  (app : TuiApplication) : option (Outcome (option View) * TuiApplication) :=
  match fuel with
  | O => None
  | S fuel' =>
    let app := set_index (index (controllers app) + increment) app in
    if index (controllers app) <? 0 then
      Some (Return None, set_index cur_index app)
    else if len app <=? index (controllers app) then
      Some (Return None, exit app)
    else
      let new := cur app in
      match make_view_for_controller new app with
      | (Return v, app') => Some (Return (Some v), app')
      | (Raise Skip, app') => move_loop fuel' increment cur_index app'
      | (Raise (Exc what), app') =>
        Some (Raise (Exc what), set_index cur_index app')
      | (Raise (BaseExc what), app') => Some (Raise (BaseExc what), app')
      end
  end.

(** The statements of [_move_screen] between the pretransition and the
    loop: the active screen is signalled completed and torn down, and
    the cursor is recorded. *)
Definition leave_current (app : TuiApplication) : TuiApplication :=
  let old := cur_screen app in
  let app := set_cur_screen None app in
  match old with
  | Some old =>
    emit (EndUi (name old)) (emit (ContextExit (name old) "completed") app)
  | None => app
  end.

(** [TuiApplication._move_screen].  [coro] is the pretransition
    awaitable, given by what awaiting it does. *)
Definition _move_screen (fuel : nat) (increment : Z)
  (coro : option (Outcome unit)) (app : TuiApplication)
  : option (Outcome (option View) * TuiApplication) :=
  match coro with
  | Some (Raise e) => Some (Raise e, app)
  | _ =>
    let app := leave_current app in
    let cur_index := index (controllers app) in
    move_loop fuel increment cur_index app
  end.

(** An application with the cursor before the first stage, as
    [ControllerSet] starts it. *)
Definition initial (screens : list string) (stages : list Controller)
  : TuiApplication :=
  {| opts_screens := screens;
     controllers := {| instances := stages; index := -1 |};
     cur_screen := None;
     events := [] |}.

(** Position [i] holds a stage. *)
Definition in_range (app : TuiApplication) (i : Z) : bool :=
  (0 <=? i) && (i <? len app).

(** What building the view of the stage at position [i] comes to. *)
Definition construction (app : TuiApplication) (i : Z) : Outcome View :=
  fst (make_view_for_controller (cur (set_index i app)) (set_index i app)).

Definition is_skip (r : Outcome View) : bool :=
  match r with Raise Skip => true | _ => false end.

(** Going from position [from] in steps of [increment], the next [k]
    positions hold stages and each of them raises [Skip]. *)
Fixpoint skips (app : TuiApplication) (from increment : Z) (k : nat) : bool :=
  match k with
  | O => true
  | S k' =>
    in_range app (from + increment)
    && is_skip (construction app (from + increment))
    && skips app (from + increment) increment k'
  end.

(** The pretransition, if any, went through. *)
Definition went_through (coro : option (Outcome unit)) : bool :=
  match coro with Some (Raise _) => false | _ => true end.

(** Calls of [make_view_for_controller] seen in a log: each starts with
    [context.enter]. *)
Definition attempts (log : list Event) : nat :=
  List.length
    (filter (fun e => match e with ContextEnter _ _ => true | _ => false end)
       log).

(** Calls of [self.exit()] seen in a log. *)
Definition exits (log : list Event) : nat :=
  List.length
    (filter (fun e => match e with AppExit => true | _ => false end) log).

(** Stages for the examples. *)
Definition welcome : Controller :=
  {| name := "Welcome"; make_ui := Raise Skip |}.
Definition keyboard : Controller :=
  {| name := "Keyboard"; make_ui := Return (Plain (BaseView "keyboard")) |}.
Definition network : Controller :=
  {| name := "Network";
     make_ui := Return (Coroutine (Raise (Exc "ValueError"))) |}.

(** [app1] is [app] after [k] more constructions that changed nothing
    but the log. *)
Definition after_attempts (k : nat) (app app1 : TuiApplication) : Prop :=
  instances (controllers app1) = instances (controllers app)
  /\ opts_screens app1 = opts_screens app
  /\ cur_screen app1 = cur_screen app
  /\ attempts (events app1) = (attempts (events app) + k)%nat
  /\ exits (events app1) = exits (events app).

(** Turns still possible from position [i]: with a non-zero increment
    the cursor leaves the sequence after at most that many stages. *)
Definition turns_left (app : TuiApplication) (increment i : Z) : Z :=
  if 0 <? increment then len app - i else i + 1.

(** The cursor on Keyboard, the current screen, with Network next. *)
Definition at_keyboard : TuiApplication :=
  {| opts_screens := [];
     controllers := {| instances := [keyboard; network]; index := 0 |};
     cur_screen := Some keyboard;
     events := [] |}.

(** [at_keyboard] after a forward move that failed on Network. *)
Definition network_failed : TuiApplication :=
  {| opts_screens := [];
     controllers := {| instances := [keyboard; network]; index := 0 |};
     cur_screen := None;
     events :=
       [ContextExit "Keyboard" "completed"; EndUi "Keyboard";
        ContextEnter "Network" "starting UI"; MakeUi "Network"] |}.

(** A stage whose [make_ui] coroutine is cancelled while it is awaited. *)
Definition mirror : Controller :=
  {| name := "Mirror";
     make_ui := Return (Coroutine (Raise (BaseExc "CancelledError"))) |}.

(** The cursor on Keyboard with Mirror next, and the same application
    after a forward move that was cancelled while Mirror built its view. *)
Definition before_mirror : TuiApplication :=
  {| opts_screens := [];
     controllers := {| instances := [keyboard; mirror]; index := 0 |};
     cur_screen := Some keyboard;
     events := [] |}.

Definition mirror_cancelled : TuiApplication :=
  {| opts_screens := [];
     controllers := {| instances := [keyboard; mirror]; index := 1 |};
     cur_screen := None;
     events :=
       [ContextExit "Keyboard" "completed"; EndUi "Keyboard";
        ContextEnter "Mirror" "starting UI"; MakeUi "Mirror"] |}.

End Navigation.

(** ** The progress indication wrapper *)

Module Indication.

Open Scope string_scope.
Open Scope list_scope.
Open Scope N_scope.

(** Instants and durations of the event loop's clock, in milliseconds. *)
Definition Time : Type := N.

(** [MAX_BLOCK_TIME = 0.1] seconds. *)
Definition MAX_BLOCK_TIME : Time := 100.

(** [MIN_SHOW_PROGRESS_TIME = 1.0] seconds. *)
Definition MIN_SHOW_PROGRESS_TIME : Time := 1000.

Section WithResult.

(** What the awaited operation returns. *)
Variable R : Type.

(** What an observer of one call sees, each with its instant. *)
Inductive Event : Type :=
| ShowCalled                              (* show() is invoked *)
| HideCalled                              (* hide() is invoked *)
| HideReturned                            (* [await hide()] is over: hide
                                             returned *)
| OperationCompleted (r : Outcome R).     (* [await awaitable] is over *)

(** Where the coroutine [_show], run as [show_task], stands. *)
Inductive ShowTask : Type :=
| Created                   (* create_task(_show()), no turn yet *)
| Sleeping (since : Time)   (* await asyncio.sleep(MAX_BLOCK_TIME) *)
| Showing                   (* await show() *)
| ShowOver                  (* _show returned, or show() raised into the task *)
| ShowCancelled.            (* show_task.cancel() took effect *)

(** Where the caller of [_wait_with_indication] stands. *)
Inductive Caller : Type :=
| AwaitingOperation                   (* result = await awaitable *)
| AwaitingMinShow (r : Outcome R)     (* finally: await min_show_task *)
| AwaitingHide (r : Outcome R)        (* finally: await hide() *)
| Finished (r : Outcome R)            (* the finally block ended: [return
                                         result], or the operation's
                                         exception goes on to the caller *)
| Interrupted (e : Raised).           (* an exception left the finally block *)

Record State : Type := {
  now : Time;
  block_input : bool;              (* self.ui.block_input *)
  min_show_task : option Time;     (* None, or the task and when it was created *)
  show_task : ShowTask;
  caller : Caller;
  trace : list (Time * Event)
}.

(** One turn of the event loop on behalf of this call.  Timers may fire
    late but never early; the order of turns is the event loop's. *)
Inductive Action : Type :=
| Tick (d : Time)                   (* the clock advances by d *)
| RunShowTask                       (* show_task gets its first turn *)
| WakeShowTask                      (* sleep(MAX_BLOCK_TIME) is over *)
| ShowReturns (r : Outcome unit)    (* show() finishes *)
| OperationDone (r : Outcome R)     (* the awaitable returns r, raises, or
                                       the caller is cancelled waiting for it *)
| MinShowDone                       (* min_show_task is over *)
| HideReturns (r : Outcome unit)    (* hide() finishes *)
| CancelCaller.                     (* the caller is cancelled while it
                                       awaits min_show_task *)

(** The statements of [_wait_with_indication] before [await awaitable],
    entered at instant [t0]. *)
Definition enter (t0 : Time) : State :=
  {| now := t0;
     block_input := true;
     min_show_task := None;
     show_task := Created;
     caller := AwaitingOperation;
     trace := [] |}.

(** The statements of [_show] after its sleep, up to the call of [show]. *)
Definition _show (s : State) : State :=
  {| now := now s;
     block_input := false;
     min_show_task := Some (now s);
     show_task := Showing;
     caller := caller s;
     trace := trace s ++ [(now s, ShowCalled)] |}.

(** [show_task.cancel()] *)
Definition cancel (t : ShowTask) : ShowTask :=
  match t with
  | Created | Sleeping _ | Showing => ShowCancelled
  | ShowOver | ShowCancelled => t
  end.

(** Entry of the [finally] block, the operation having ended in [r]. *)
Definition finally_enter (r : Outcome R) (s : State) : State :=
  let tr := trace s ++ [(now s, OperationCompleted r)] in
  match min_show_task s with
  | Some _ =>
    {| now := now s; block_input := block_input s;
       min_show_task := min_show_task s; show_task := show_task s;
       caller := AwaitingMinShow r; trace := tr |}
  | None =>
    {| now := now s; block_input := false;
       min_show_task := None; show_task := cancel (show_task s);
       caller := Finished r; trace := tr |}
  end.

(** The [finally] block after [await min_show_task]; [hide] tells
    whether a hide callback was supplied. *)
Definition finally_hide (hide : bool) (r : Outcome R) (s : State) : State :=
  if hide then
    {| now := now s; block_input := block_input s;
       min_show_task := min_show_task s; show_task := show_task s;
       caller := AwaitingHide r; trace := trace s ++ [(now s, HideCalled)] |}
  else
    {| now := now s; block_input := block_input s;
       min_show_task := min_show_task s; show_task := show_task s;
       caller := Finished r; trace := trace s |}.

(** The end of the [finally] block when [await hide()] returns. *)
Definition hide_returned (r : Outcome R) (s : State) : State :=
  {| now := now s; block_input := block_input s;
     min_show_task := min_show_task s; show_task := show_task s;
     caller := Finished r; trace := trace s ++ [(now s, HideReturned)] |}.

Definition set_caller (c : Caller) (s : State) : State :=
  {| now := now s; block_input := block_input s;
     min_show_task := min_show_task s; show_task := show_task s;
     caller := c; trace := trace s |}.

Definition set_show_task (t : ShowTask) (s : State) : State :=
  {| now := now s; block_input := block_input s;
     min_show_task := min_show_task s; show_task := t;
     caller := caller s; trace := trace s |}.

Definition advance (d : Time) (s : State) : State :=
  {| now := now s + d; block_input := block_input s;
     min_show_task := min_show_task s; show_task := show_task s;
     caller := caller s; trace := trace s |}.

(** One turn; [None] when the event loop cannot take it in this state. *)
Definition step (hide : bool) (a : Action) (s : State) : option State :=
  match a with
  | Tick d => Some (advance d s)
  | RunShowTask =>
    match show_task s with
    | Created => Some (set_show_task (Sleeping (now s)) s)
    | _ => None
    end
  | WakeShowTask =>
    match show_task s with
    | Sleeping since =>
      if since + MAX_BLOCK_TIME <=? now s then Some (_show s) else None
    | _ => None
    end
  | ShowReturns _ =>
    match show_task s with
    | Showing => Some (set_show_task ShowOver s)
    | _ => None
    end
  | OperationDone r =>
    match caller s with
    | AwaitingOperation => Some (finally_enter r s)
    | _ => None
    end
  | MinShowDone =>
    match caller s, min_show_task s with
    | AwaitingMinShow r, Some created =>
      if created + MIN_SHOW_PROGRESS_TIME <=? now s
      then Some (finally_hide hide r s) else None
    | _, _ => None
    end
  | HideReturns h =>
    match caller s with
    | AwaitingHide r =>
      Some match h with
           | Return _ => hide_returned r s
           | Raise e => set_caller (Interrupted e) s
           end
    | _ => None
    end
  | CancelCaller =>
    match caller s with
    | AwaitingMinShow _ =>
      Some (set_caller (Interrupted (BaseExc "CancelledError")) s)
    | _ => None
    end
  end.

(** The turns of a schedule, one after the other. *)
Fixpoint run (hide : bool) (schedule : list Action) (s : State)
  : option State :=
  match schedule with
  | [] => Some s
  | a :: rest =>
    match step hide a s with
    | Some s' => run hide rest s'
    | None => None
    end
  end.

(** [TuiApplication._wait_with_indication], entered at [t0]: the state
    the call is in after the event loop took the turns of [schedule]. *)
Definition _wait_with_indication (hide : bool) (t0 : Time)
  (schedule : list Action) : option State :=
  run hide schedule (enter t0).

(** The call is over: it returned or raised to its caller. *)
Definition completed (s : State) : bool :=
  match caller s with
  | Finished _ | Interrupted _ => true
  | _ => false
  end.

(** The instants at which [e] was observed. *)
Definition shown_at (s : State) (t : Time) : Prop := In (t, ShowCalled) (trace s).
Definition hidden_at (s : State) (t : Time) : Prop := In (t, HideCalled) (trace s).
Definition hide_returned_at (s : State) (t : Time) : Prop :=
  In (t, HideReturned) (trace s).
Definition operation_done_at (s : State) (t : Time) (r : Outcome R) : Prop :=
  In (t, OperationCompleted r) (trace s).

(** What is true of every state a call can be in; [t0] is the instant of
    entry and [hide] tells whether a hide callback was supplied. *)
Record Inv (hide : bool) (t0 : Time) (s : State) : Prop := {
  inv_clock : t0 <= now s;
  inv_past : forall t e, In (t, e) (trace s) -> t <= now s;
  inv_sleeping : forall since, show_task s = Sleeping since -> t0 <= since;
  inv_shown : forall ts, shown_at s ts ->
    min_show_task s = Some ts /\ t0 + MAX_BLOCK_TIME <= ts;
  inv_min_show : forall c, min_show_task s = Some c ->
    shown_at s c /\ block_input s = false
    /\ (show_task s = Showing \/ show_task s = ShowOver);
  inv_hidden : forall th, hidden_at s th ->
    hide = true
    /\ exists c, min_show_task s = Some c /\ c + MIN_SHOW_PROGRESS_TIME <= th;
  inv_done : forall d r, operation_done_at s d r ->
    forall ts, shown_at s ts -> ts <= d;
  inv_settled : caller s <> AwaitingOperation ->
    show_task s <> Created /\ forall since, show_task s <> Sleeping since;
  inv_caller :
    match caller s with
    | AwaitingOperation =>
      (forall d r, ~ operation_done_at s d r)
      /\ (forall th, ~ hidden_at s th)
      /\ (min_show_task s = None -> block_input s = true)
    | AwaitingMinShow r =>
      min_show_task s <> None
      /\ (forall th, ~ hidden_at s th)
      /\ exists d, operation_done_at s d r
    | AwaitingHide r =>
      hide = true
      /\ (exists th, hidden_at s th)
      /\ exists d, operation_done_at s d r
    | Finished r =>
      block_input s = false
      /\ (exists d, operation_done_at s d r)
      /\ forall c, min_show_task s = Some c ->
           c + MIN_SHOW_PROGRESS_TIME <= now s
           /\ (hide = true ->
               exists th tr, hidden_at s th /\ hide_returned_at s tr
                             /\ th <= tr)
    | Interrupted _ => block_input s = false
    end
}.


(** No indication for a fast operation: when the operation was over
    before [MAX_BLOCK_TIME] had passed since entry, neither [show] nor
    [hide] is ever called; and [show] is only ever called
    [MAX_BLOCK_TIME] or more after entry, the operation not being over
    earlier. *)
Definition indication_only_when_slow (t0 : Time) (s : State) : Prop :=
  (forall d r, operation_done_at s d r -> d < t0 + MAX_BLOCK_TIME ->
     (forall ts, ~ shown_at s ts) /\ (forall th, ~ hidden_at s th))
  /\ (forall ts, shown_at s ts ->
        t0 + MAX_BLOCK_TIME <= ts
        /\ forall d r, operation_done_at s d r -> ts <= d).

(** Input is unblocked when the call is over; until then it stays
    blocked as long as the caller awaits the operation and the indicator
    was not shown, and it is unblocked from the instant [show] is
    called. *)
Definition input_unblocked_on_exit (s : State) : Prop :=
  (completed s = true -> block_input s = false)
  /\ (caller s = AwaitingOperation -> min_show_task s = None ->
      block_input s = true)
  /\ (forall ts, shown_at s ts -> block_input s = false).

End WithResult.

Arguments ShowCalled {R}.
Arguments HideCalled {R}.
Arguments HideReturned {R}.
Arguments AwaitingOperation {R}.
Arguments Interrupted {R} e.
Arguments Tick {R} d.
Arguments RunShowTask {R}.
Arguments WakeShowTask {R}.
Arguments ShowReturns {R} r.
Arguments MinShowDone {R}.
Arguments HideReturns {R} r.
Arguments CancelCaller {R}.
Arguments enter {R} t0.


(** Example schedules. *)

(** The operation takes 150 ms: the indicator is shown at 100 ms and
    hidden at 1100 ms. *)
Definition slow_operation : list (Action string) :=
  [RunShowTask; Tick 100; WakeShowTask; ShowReturns (Return tt); Tick 50;
   OperationDone (Return "view"); Tick 950; MinShowDone;
   HideReturns (Return tt)].

Definition slow_operation_end : State string :=
  {| now := 1100;
     block_input := false;
     min_show_task := Some 100;
     show_task := ShowOver;
     caller := Finished (Return "view");
     trace := [(100, ShowCalled); (150, OperationCompleted (Return "view"));
               (1100, HideCalled); (1100, HideReturned)] |}.

(** The operation fails after 40 ms: no indicator. *)
Definition fast_operation : list (Action string) :=
  [RunShowTask; Tick 40; OperationDone (Raise (Exc "ValueError")); Tick 200].

Definition fast_operation_end : State string :=
  {| now := 240;
     block_input := false;
     min_show_task := None;
     show_task := ShowCancelled;
     caller := Finished (Raise (Exc "ValueError"));
     trace := [(40, OperationCompleted (Raise (Exc "ValueError")))] |}.

(** The caller is cancelled at 300 ms while waiting for the operation,
    the indicator being up; no hide callback. *)
Definition cancelled_operation : list (Action string) :=
  [RunShowTask; Tick 120; WakeShowTask; Tick 180;
   OperationDone (Raise (BaseExc "CancelledError")); Tick 1000; MinShowDone].

Definition cancelled_operation_end : State string :=
  {| now := 1300;
     block_input := false;
     min_show_task := Some 120;
     show_task := Showing;
     caller := Finished (Raise (BaseExc "CancelledError"));
     trace := [(120, ShowCalled);
               (300, OperationCompleted (Raise (BaseExc "CancelledError")))] |}.

End Indication.

(** ** SingleInstanceTask *)

Module SingleInstance.

Open Scope string_scope.
Open Scope list_scope.
Open Scope nat_scope.

Inductive RestartPolicy : Type :=
| RejectIfRunning       (* cancel_restart=False *)
| CancelAndRestart.     (* cancel_restart=True *)

Inductive TaskState : Type :=
| Running
| Completed
| Cancelled
| Failed.

(** One launched task: which factory invocation made it, where it
    stands, and whether its cancellation was requested.  Cancellation is
    cooperative: the request is recorded, the task honours it later. *)
Record TaskHandle : Type := {
  ident : nat;
  state : TaskState;
  cancel_requested : bool
}.

(** Modelled from the spec: the class [SingleInstanceTask]
    (subiquitycore/async_helpers.py is not among the sources; only its
    test is).  [task] is the current or most recent task, [None] before
    any start; [superseded] holds the tasks it replaced; [call_count]
    counts the invocations of the factory. *)
Record SingleInstanceTask : Type := {
  policy : RestartPolicy;
  task : option TaskHandle;
  superseded : list TaskHandle;
  call_count : nat
}.

(** Modelled from the spec: [SingleInstanceTask(func, cancel_restart=...)],
    idle, the factory not yet invoked. *)
Definition create (cancel_restart : bool) : SingleInstanceTask :=
  {| policy := if cancel_restart then CancelAndRestart else RejectIfRunning;
     task := None;
     superseded := [];
     call_count := 0 |}.

(** Modelled from the spec: the instance is busy when its most recent
    task has not reached a terminal state. *)
Definition running (sit : SingleInstanceTask) : bool :=
  match task sit with
  | Some h => match state h with Running => true | _ => false end
  | None => false
  end.

(** Modelled from the spec: [done()], true iff the most recent task
    reached a terminal state, or nothing has ever started. *)
Definition done (sit : SingleInstanceTask) : bool := negb (running sit).

(** Modelled from the spec: launching invokes the factory once and makes
    the new task the current one. *)
Definition launch (sit : SingleInstanceTask) : SingleInstanceTask :=
  {| policy := policy sit;
     task := Some {| ident := call_count sit;
                     state := Running;
                     cancel_requested := false |};
     superseded :=
       match task sit with
       | Some h => h :: superseded sit
       | None => superseded sit
       end;
     call_count := S (call_count sit) |}.

(** Modelled from the spec: best-effort cancellation of the current
    task, a no-op when idle. *)
Definition cancel (sit : SingleInstanceTask) : SingleInstanceTask :=
  match task sit with
  | Some h =>
    if running sit then
      {| policy := policy sit;
         task := Some {| ident := ident h; state := state h;
                         cancel_requested := true |};
         superseded := superseded sit;
         call_count := call_count sit |}
    else sit
  | None => sit
  end.

(** Modelled from the spec: [start()].  Idle: launch.  Busy: under
    [RejectIfRunning] fail with the error the test names
    [TaskAlreadyRunningError] and leave everything as it is; under
    [CancelAndRestart] cancel the running task and launch a new one. *)
Definition start (sit : SingleInstanceTask)
  : Outcome unit * SingleInstanceTask :=
  if running sit then
    match policy sit with
    | RejectIfRunning => (Raise (Exc "TaskAlreadyRunningError"), sit)
    | CancelAndRestart => (Return tt, launch (cancel sit))
    end
  else (Return tt, launch sit).

(** [TestSingleInstanceTask.test_cancellable].  The factory sleeps three
    seconds, so after the 0.01 s pause the first task is still running
    when [start] is called again.  The answer is
    [(mock_fn.call_count, restarted)]. *)
Definition test_cancellable (cancel_restart : bool) : nat * bool :=
  let sit := create cancel_restart in
  let '(_, sit) := start sit in
  let '(second, sit) := start sit in
  let restarted :=
    match second with
    | Raise (Exc "TaskAlreadyRunningError") => false
    | _ => true
    end in
  let sit := cancel sit in
  (call_count sit, restarted).

(** A fresh instance after its first [start()]: the task is running. *)
Definition busy (cancel_restart : bool) : SingleInstanceTask :=
  snd (start (create cancel_restart)).

End SingleInstance.

(** ** The waits built on the indication wrapper *)

Module Dialogs.

Import Indication.
Open Scope string_scope.
Open Scope list_scope.
Open Scope N_scope.

(** A call of one of the two callbacks. *)
Inductive Call : Type :=
| Show
| Hide.







Section WithResult.

Variable R : Type.

(** The callback calls of a trace, in order. *)
Fixpoint calls (trace : list (Time * Event R)) : list Call :=
  match trace with
  | [] => []
  | (_, ShowCalled) :: rest => Show :: calls rest
  | (_, HideCalled) :: rest => Hide :: calls rest
  | (_, HideReturned) :: rest => calls rest
  | (_, OperationCompleted _) :: rest => calls rest
  end.


(** [TuiApplication.wait_with_progress]: no hide callback. *)
Definition wait_with_progress (t0 : Time) (schedule : list (Action R))
  : option (State R) :=
  _wait_with_indication false t0 schedule.


End WithResult.

End Dialogs.

(** ** Moving between screens *)

Module Moves.

Import Navigation.
Open Scope string_scope.
Open Scope list_scope.
Open Scope Z_scope.

(** The application together with the body of its frame
    ([self.ui.body], what [self.ui.set_body] sets; [None] before any
    view was set) and with what [self.show_progress()] makes of that
    body.  [TuiApplication.show_progress] itself raises
    NotImplementedError and leaves the body as it is; the applications
    built on the class override it. *)
Record Tui : Type := {
  nav : TuiApplication;
  ui_body : option View;
  show_progress : option View -> option View
}.

(** [view_or_callable()] when [callable(view_or_callable)], else the
    view itself: a [ViewFactory] stands for a callable that answers the
    view it names. *)
Definition call_view (view_or_callable : View) : View :=
  match view_or_callable with
  | ViewFactory ident => BaseView ident
  | BaseView ident => BaseView ident
  end.

(** The body of the frame when [wait_with_progress] ended in state [s]:
    its [show] callback calls [self.show_progress()], and [show] is
    called in the very turn that creates [min_show_task]. *)
Definition body_after_wait (s : Indication.State (option View)) (tui : Tui)
  : option View :=
  match Indication.min_show_task s with
  | Some _ => show_progress tui (ui_body tui)
  | None => ui_body tui
  end.

(** [TuiApplication.move_screen].  The awaited operation is
    [_move_screen]; the event loop takes the turns of [before] while it
    is suspended (none when it never suspends) and those of [after]
    once it is over, the clock counting from the call.
    [wait_with_progress] hands the result of [_move_screen] on, or
    raises what left its [finally] block; [None] while the call has not
    come back. *)
Definition move_screen (fuel : nat) (increment : Z)
  (coro : option (Outcome unit))
  (before after : list (Indication.Action (option View)))
  (tui : Tui) : option (Outcome unit * Tui) :=
  match _move_screen fuel increment coro (nav tui) with
  | None => None
  | Some (r, app) =>
    match Dialogs.wait_with_progress 0%N
            (before ++ Indication.OperationDone r :: after) with
    | None => None
    | Some s =>
      let waited :=
        {| nav := app;
           ui_body := body_after_wait s tui;
           show_progress := show_progress tui |} in
      match Indication.caller s with
      | Indication.Finished (Return (Some view_or_callable)) =>
        Some (Return tt,
              {| nav := app;
                 ui_body := Some (call_view view_or_callable);
                 show_progress := show_progress tui |})
      | Indication.Finished (Return None) => Some (Return tt, waited)
      | Indication.Finished (Raise e) => Some (Raise e, waited)
      | Indication.Interrupted e => Some (Raise e, waited)
      | _ => None
      end
    end
  end.

(** [TuiApplication.next_screen] *)
Definition next_screen (fuel : nat) (coro : option (Outcome unit))
  (before after : list (Indication.Action (option View)))
  (tui : Tui) : option (Outcome unit * Tui) :=
  move_screen fuel 1 coro before after tui.

(** [TuiApplication.prev_screen] *)
Definition prev_screen (fuel : nat)
  (before after : list (Indication.Action (option View)))
  (tui : Tui) : option (Outcome unit * Tui) :=
  move_screen fuel (-1) None before after tui.

(** [TuiApplication.select_initial_screen] *)
Definition select_initial_screen (fuel : nat)
  (before after : list (Indication.Action (option View)))
  (tui : Tui) : option (Outcome unit * Tui) :=
  next_screen fuel None before after tui.

(** The turns [before] and [after] bring the wait to its end, whatever
    the operation comes to. *)
Definition wait_ends (before after : list (Indication.Action (option View)))
  : Prop :=
  forall r, exists s,
    Dialogs.wait_with_progress 0%N
      (before ++ Indication.OperationDone r :: after)
    = Some s
    /\ Indication.completed s = true.

(** How a finished [_move_screen] relates to the application it started
    from: [k] stages were skipped, and the position after them decided
    the result. *)
Definition move_outcome (increment origin : Z) (app : TuiApplication)
  (k : nat) (res : Outcome (option View)) (app' : TuiApplication) : Prop :=
  let target := index (controllers app) + Z.of_nat (S k) * increment in
  skips app (index (controllers app)) increment k = true
  /\ instances (controllers app') = instances (controllers app)
  /\ opts_screens app' = opts_screens app
  /\ match res with
     | Return None =>
       (target < 0
        /\ index (controllers app') = origin
        /\ exits (events app') = exits (events app)
        /\ attempts (events app') = (attempts (events app) + k)%nat)
       \/ (len app <= target
           /\ index (controllers app') = target
           /\ exits (events app') = S (exits (events app))
           /\ attempts (events app') = (attempts (events app) + k)%nat)
     | Return (Some v) =>
       in_range app target = true
       /\ construction app target = Return v
       /\ index (controllers app') = target
       /\ exits (events app') = exits (events app)
       /\ attempts (events app') = (attempts (events app) + S k)%nat
     | Raise (Exc what) =>
       in_range app target = true
       /\ construction app target = Raise (Exc what)
       /\ index (controllers app') = origin
       /\ exits (events app') = exits (events app)
       /\ attempts (events app') = (attempts (events app) + S k)%nat
     | Raise (BaseExc what) =>
       in_range app target = true
       /\ construction app target = Raise (BaseExc what)
       /\ index (controllers app') = target
       /\ exits (events app') = exits (events app)
       /\ attempts (events app') = (attempts (events app) + S k)%nat
     | Raise Skip => False
     end.

(** A frame on three stages, the second of which is skipped, with the
    cursor on the first; [show_progress] puts a progress view in the
    body. *)
Definition locale : Controller :=
  {| name := "Locale"; make_ui := Return (Plain (BaseView "locale")) |}.

Definition identity : Controller :=
  {| name := "Identity";
     make_ui := Return (Coroutine (Return (ViewFactory "identity"))) |}.

Definition progress_view (body : option View) : option View :=
  Some (BaseView "progress").

Definition on_locale : Tui :=
  {| nav := {| opts_screens := [];
               controllers :=
                 {| instances := [locale; welcome; identity]; index := 0 |};
               cur_screen := Some locale;
               events := [] |};
     ui_body := Some (BaseView "locale");
     show_progress := progress_view |}.

(** [on_locale] after a forward move. *)
Definition on_identity : Tui :=
  {| nav := {| opts_screens := [];
               controllers :=
                 {| instances := [locale; welcome; identity]; index := 2 |};
               cur_screen := Some identity;
               events :=
                 [ContextExit "Locale" "completed"; EndUi "Locale";
                  ContextEnter "Welcome" "starting UI"; MakeUi "Welcome";
                  ContextExit "Welcome" "(skipped)";
                  ContextEnter "Identity" "starting UI"; MakeUi "Identity"] |};
     ui_body := Some (BaseView "identity");
     show_progress := progress_view |}.

(** [on_locale] after a forward move that took 150 ms and was cancelled
    300 ms later, while the indicator was up: Identity is the current
    screen, the body is the progress view. *)
Definition cancelled_on_identity : Tui :=
  {| nav := nav on_identity;
     ui_body := Some (BaseView "progress");
     show_progress := progress_view |}.

End Moves.

(** ** Server controllers *)

Module ServerController.

Open Scope string_scope.
Open Scope list_scope.

(** Data of the autoinstall configuration and of state files: [None],
    a list of section names (the value of "interactive-sections"), or
    other data, identified by its text. *)
Inductive Value : Type :=
| VNull
| VSections (items : list string)
| VData (text : string).

(** [self.app.autoinstall_config] when it is a dict: the list under
    "interactive-sections", if that key is there, and the entries under
    the other keys. *)
Record AutoinstallConfig : Type := {
  interactive_sections : option (list string);
  entries : list (string * Value)
}.

(** What the hub and the controller's hooks are asked to do, in order. *)
Inductive Call : Type :=
| ChildEnter (description : string)          (* with self.context.child(...) *)
| ChildExit (description : string) (failed : bool)
| LoadAutoinstallData (data : Value)         (* self.load_autoinstall_data(data) *)
| Broadcast (model_name : string).           (* hub.abroadcast((CONFIGURED, model_name)) *)

(** The part of the server application a controller uses. *)
Record Server : Type := {
  autoinstall_config : option AutoinstallConfig;
  variant : string;            (* base_model.source.current.variant *)
  state_files : list (string * Value);   (* the files of state_path("states", ...) *)
  calls : list Call
}.

(** [SubiquityController]: its class attributes, [_active], and what
    its [serialize()] answers. *)
Record SubiquityController : Type := {
  name : string;
  model_name : option string;
  autoinstall_key : option string;
  autoinstall_key_alias : option string;
  autoinstall_schema : option (Value -> bool);   (* None, or what validates *)
  autoinstall_default : Value;
  interactive_for_variants : option (list string);
  _active : bool;
  serialize : Value
}.

Inductive Failure : Type :=
| AutoinstallValidationError (section : option string)
| TypeError.

Inductive Result (A : Type) : Type :=
| Ok (a : A)
| Error (e : Failure).

Arguments Ok {A} a.
Arguments Error {A} e.

Definition set_calls (l : list Call) (srv : Server) : Server :=
  {| autoinstall_config := autoinstall_config srv;
     variant := variant srv;
     state_files := state_files srv;
     calls := l |}.

Definition record (c : Call) (srv : Server) : Server :=
  set_calls (calls srv ++ [c]) srv.

Definition set_active (b : bool) (c : SubiquityController)
  : SubiquityController :=
  {| name := name c; model_name := model_name c;
     autoinstall_key := autoinstall_key c;
     autoinstall_key_alias := autoinstall_key_alias c;
     autoinstall_schema := autoinstall_schema c;
     autoinstall_default := autoinstall_default c;
     interactive_for_variants := interactive_for_variants c;
     _active := b;
     serialize := serialize c |}.

(** A dict lookup in a list of bindings, the first binding of a key
    counting; [None] is the KeyError. *)
Fixpoint lookup (key : string) (bindings : list (string * Value))
  : option Value :=
  match bindings with
  | [] => None
  | (k, v) :: rest => if String.eqb key k then Some v else lookup key rest
  end.

(** [bool(config)] is false for [None] and for the empty dict. *)
Definition truthy (config : option AutoinstallConfig) : bool :=
  match config with
  | None => false
  | Some c =>
    match interactive_sections c, entries c with
    | None, [] => false
    | _, _ => true
    end
  end.

(** [config[key]]; the keys of the config are strings, so a [None] key
    is a KeyError. *)
Definition getitem (config : AutoinstallConfig) (key : option string)
  : option Value :=
  match key with
  | None => None
  | Some k =>
    if String.eqb k "interactive-sections"
    then option_map VSections (interactive_sections config)
    else lookup k (entries config)
  end.

(** [key in i_sections], for a key that may be [None]. *)
Definition listed (key : option string) (i_sections : list string) : bool :=
  match key with
  | None => false
  | Some k => existsb (String.eqb k) i_sections
  end.

(** [SubiquityController.interactive] *)
Definition interactive (c : SubiquityController) (srv : Server) : bool :=
  if negb (truthy (autoinstall_config srv)) then _active c
  else
    let i_sections :=
      match autoinstall_config srv with
      | Some config =>
        match interactive_sections config with
        | Some l => l
        | None => []
        end
      | None => []
      end in
    if listed (Some "*") i_sections then _active c
    else if listed (autoinstall_key c) i_sections then _active c
    else if match autoinstall_key_alias c with
            | Some _ => listed (autoinstall_key_alias c) i_sections
            | None => false
            end
    then _active c
    else false.

(** [NonInteractiveController.interactive] *)
Definition non_interactive (c : SubiquityController) (srv : Server) : bool :=
  false.

(** The [for ... else] of [setup_autoinstall]: the data under the first
    candidate key the config has, else the default. *)
Fixpoint first_found (config : AutoinstallConfig)
  (key_candidates : list (option string)) (default : Value) : Value :=
  match key_candidates with
  | [] => default
  | key :: rest =>
    match getitem config key with
    | Some ai_data => ai_data
    | None => first_found config rest default
    end
  end.

(** [SubiquityController.validate_autoinstall]; [jsonschema.validate]
    against a [None] schema is a TypeError. *)
Definition validate_autoinstall (c : SubiquityController) (ai_data : Value)
  : Result unit :=
  match autoinstall_schema c with
  | Some validates =>
    if validates ai_data then Ok tt
    else Error (AutoinstallValidationError (autoinstall_key c))
  | None => Error TypeError
  end.

(** The data goes through [setup_autoinstall] unchecked or passes the
    schema. *)
Definition accepted (c : SubiquityController) (ai_data : Value) : bool :=
  match ai_data, autoinstall_schema c with
  | VNull, _ => true
  | _, None => true
  | _, Some validates => validates ai_data
  end.


(** [SubiquityController.setup_autoinstall] *)
Definition setup_autoinstall (c : SubiquityController) (srv : Server)
  : Result unit * Server :=
  match autoinstall_config srv with
  | None => (Ok tt, srv)
  | Some config =>
    if negb (truthy (Some config)) then (Ok tt, srv)
    else
      let srv := record (ChildEnter "load_autoinstall_data") srv in
      let key_candidates :=
        autoinstall_key c
        :: match autoinstall_key_alias c with
           | Some alias => [Some alias]
           | None => []
           end in
      let ai_data := first_found config key_candidates (autoinstall_default c) in
      let checked :=
        match ai_data, autoinstall_schema c with
        | VNull, _ => Ok tt
        | _, None => Ok tt
        | _, Some _ => validate_autoinstall c ai_data
        end in
      match checked with
      | Error e =>
        (Error e, record (ChildExit "load_autoinstall_data" true) srv)
      | Ok _ =>
        let srv := record (LoadAutoinstallData ai_data) srv in
        (Ok tt, record (ChildExit "load_autoinstall_data" false) srv)
      end
  end.

(** The data [setup_autoinstall] settles on. *)
Definition ai_data_of (c : SubiquityController) (config : AutoinstallConfig)
  : Value :=
  first_found config
    (autoinstall_key c
     :: match autoinstall_key_alias c with
        | Some alias => [Some alias]
        | None => []
        end)
    (autoinstall_default c).

(** [setup_autoinstall] hands [ai_data] to [load_autoinstall_data]
    inside the context child and returns. *)
Definition loads (c : SubiquityController) (srv : Server) (ai_data : Value)
  : Prop :=
  setup_autoinstall c srv
  = (Ok tt,
     record (ChildExit "load_autoinstall_data" false)
       (record (LoadAutoinstallData ai_data)
          (record (ChildEnter "load_autoinstall_data") srv))).

(** [open(state_path("states", name), "w")] with [json.dump(state, fp)] *)
Definition write_state (file : string) (state : Value) (srv : Server)
  : Server :=
  {| autoinstall_config := autoinstall_config srv;
     variant := variant srv;
     state_files := (file, state) :: state_files srv;
     calls := calls srv |}.

(** [SubiquityController.configured] *)
Definition configured (c : SubiquityController) (srv : Server) : Server :=
  let srv := write_state (name c) (serialize c) srv in
  match model_name c with
  | Some m => record (Broadcast m) srv
  | None => srv
  end.

(** [SubiquityController._confirmed]; membership in
    [interactive_for_variants] is a TypeError when that is [None]. *)
Definition _confirmed (c : SubiquityController) (srv : Server)
  : Result unit * (SubiquityController * Server) :=
  match interactive_for_variants c with
  | None => (Error TypeError, (c, srv))
  | Some variants =>
    if negb (existsb (String.eqb (variant srv)) variants)
    then (Ok tt, (set_active false c, configured c srv))
    else (Ok tt, (c, srv))
  end.

(** Examples: the timezone controller, interactive for desktop only, on
    a server install whose autoinstall lists it. *)
Definition timezone : SubiquityController :=
  {| name := "Timezone";
     model_name := Some "timezone";
     autoinstall_key := Some "timezone";
     autoinstall_key_alias := None;
     autoinstall_schema := Some (fun v => match v with VData _ => true | _ => false end);
     autoinstall_default := VNull;
     interactive_for_variants := Some ["desktop"];
     _active := true;
     serialize := VData "Europe/Paris" |}.

(** A controller whose key was renamed: "source" used to be "src". *)
Definition source : SubiquityController :=
  {| name := "Source";
     model_name := Some "source";
     autoinstall_key := Some "source";
     autoinstall_key_alias := Some "src";
     autoinstall_schema :=
       Some (fun v => match v with VData "bad" => false | _ => true end);
     autoinstall_default := VData "default";
     interactive_for_variants := None;
     _active := true;
     serialize := VData "ubuntu-server" |}.

Definition server_install : Server :=
  {| autoinstall_config :=
       Some {| interactive_sections := Some ["timezone"];
               entries := [("src", VData "bad"); ("timezone", VData "UTC")] |};
     variant := "server";
     state_files := [];
     calls := [] |}.

(** A configuration that has data under the key and under its alias. *)
Definition both_keys : AutoinstallConfig :=
  {| interactive_sections := None;
     entries := [("src", VData "bad"); ("source", VData "ok")] |}.

Definition both_keys_install : Server :=
  {| autoinstall_config := Some both_keys;
     variant := "server";
     state_files := [];
     calls := [] |}.

End ServerController.

(** ** The terminal: rich mode, keys, foreground commands *)

Module Terminal.

Open Scope string_scope.
Open Scope list_scope.

(** What [json.load] reads from a state file: a boolean, or some other
    value, identified by its text. *)
Inductive Json : Type :=
| JBool (b : bool)
| JOther (text : string).

Inductive Palette : Type :=
| PALETTE_COLOR
| PALETTE_MONO.

(** Calls on urwid, the operating system and the hooks, in order. *)
Inductive Effect : Type :=
| SetEncoding (encoding : string)     (* urwid.util.set_encoding *)
| CanvasCacheClear                    (* urwid.CanvasCache.clear() *)
| RegisterPalette (palette : Palette) (* screen.register_palette *)
| ScreenClear                         (* screen.clear() *)
| DrawScreen                          (* urwid_loop.draw_screen() *)
| ScreenStop                          (* screen.stop() *)
| InputDescriptorsChanged             (* urwid.emit_signal(...) *)
| BeforeHook
| StartCommand (cmd : string)         (* astart_command(cmd, ...) *)
| Communicate                         (* proc.communicate() *)
| TcSetPgrp                           (* os.tcsetpgrp(0, os.getpgrp()) *)
| ScreenStart                         (* screen.start() *)
| AfterHook
| Exit.                               (* self.exit() *)

(** The part of [TuiApplication] these methods use. *)
Record Console : Type := {
  dry_run : bool;                       (* self.opts.dry_run *)
  run_on_serial : bool;                 (* self.opts.run_on_serial *)
  rich_mode : option bool;              (* self.rich_mode *)
  fg_proc : option string;              (* self.fg_proc *)
  has_loop : bool;                      (* self.urwid_loop is not None *)
  screen_started : bool;                (* self.urwid_loop.screen.started *)
  state_dir : list (string * Json);     (* the files under state_path *)
  effects : list Effect
}.

Definition emit (e : Effect) (t : Console) : Console :=
  {| dry_run := dry_run t; run_on_serial := run_on_serial t;
     rich_mode := rich_mode t; fg_proc := fg_proc t;
     has_loop := has_loop t; screen_started := screen_started t;
     state_dir := state_dir t; effects := effects t ++ [e] |}.

Definition set_rich_mode (m : option bool) (t : Console) : Console :=
  {| dry_run := dry_run t; run_on_serial := run_on_serial t;
     rich_mode := m; fg_proc := fg_proc t;
     has_loop := has_loop t; screen_started := screen_started t;
     state_dir := state_dir t; effects := effects t |}.

Definition set_fg_proc (p : option string) (t : Console) : Console :=
  {| dry_run := dry_run t; run_on_serial := run_on_serial t;
     rich_mode := rich_mode t; fg_proc := p;
     has_loop := has_loop t; screen_started := screen_started t;
     state_dir := state_dir t; effects := effects t |}.

Definition set_screen_started (b : bool) (t : Console) : Console :=
  {| dry_run := dry_run t; run_on_serial := run_on_serial t;
     rich_mode := rich_mode t; fg_proc := fg_proc t;
     has_loop := has_loop t; screen_started := b;
     state_dir := state_dir t; effects := effects t |}.

(** [open(self.state_path(file), "w")] and [json.dump(value, fp)]: the
    file then holds [value]. *)
Definition write_file (file : string) (value : Json) (t : Console) : Console :=
  {| dry_run := dry_run t; run_on_serial := run_on_serial t;
     rich_mode := rich_mode t; fg_proc := fg_proc t;
     has_loop := has_loop t; screen_started := screen_started t;
     state_dir := (file, value) :: state_dir t; effects := effects t |}.

(** [open(self.state_path(file))] and [json.load(fp)]; [None] is the
    FileNotFoundError. *)
Fixpoint read_file (file : string) (dir : list (string * Json))
  : option Json :=
  match dir with
  | [] => None
  | (f, value) :: rest =>
    if String.eqb file f then Some value else read_file file rest
  end.

(** The state file of the rich mode for this kind of console. *)
Definition rich_mode_file (t : Console) : string :=
  if run_on_serial t then "rich-mode-serial" else "rich-mode-tty".

(** [rich == self.rich_mode], for a boolean [rich]. *)
Definition same_mode (rich : bool) (m : option bool) : bool :=
  match m with
  | Some b => Bool.eqb rich b
  | None => false
  end.

(** [TuiApplication.set_rich].  [self.urwid_loop.screen] is an
    AttributeError while [self.urwid_loop] is [None]. *)
Definition set_rich (rich : bool) (t : Console) : Outcome unit * Console :=
  if same_mode rich (rich_mode t) then (Return tt, t)
  else
    let t := emit (SetEncoding (if rich then "utf-8" else "ascii")) t in
    let new_palette := if rich then PALETTE_COLOR else PALETTE_MONO in
    let t := set_rich_mode (Some rich) t in
    let t := write_file (rich_mode_file t) (JBool rich) t in
    let t := emit CanvasCacheClear t in
    if negb (has_loop t) then (Raise (Exc "AttributeError"), t)
    else
      let t := emit (RegisterPalette new_palette) t in
      (Return tt, emit ScreenClear t).

(** [not self.rich_mode]: [None] and [False] are false. *)
Definition not_rich (m : option bool) : bool :=
  match m with
  | Some true => false
  | _ => true
  end.

(** [TuiApplication.toggle_rich] *)
Definition toggle_rich (t : Console) : Outcome unit * Console :=
  set_rich (not_rich (rich_mode t)) t.

(** [TuiApplication.get_initial_rich_mode] *)
Definition get_initial_rich_mode (t : Console) : Json :=
  match read_file (rich_mode_file t) (state_dir t) with
  | Some value => value
  | None =>
    match read_file "rich-mode" (state_dir t) with
    | Some value => value
    | None => JBool (negb (run_on_serial t))
    end
  end.

(** [TuiApplication.unhandled_input] *)
Definition unhandled_input (key : string) (t : Console)
  : Outcome unit * Console :=
  if dry_run t && String.eqb key "ctrl x" then (Return tt, emit Exit t)
  else if String.eqb key "f3" then
    if negb (has_loop t) then (Raise (Exc "AttributeError"), t)
    else (Return tt, emit ScreenClear t)
  else if run_on_serial t
          && existsb (String.eqb key) ["ctrl t"; "f4"]
  then toggle_rich t
  else (Return tt, t).

(** [TuiApplication.redraw_screen] *)
Definition redraw_screen (t : Console) : Console :=
  if negb (has_loop t) then t
  else if negb (screen_started t) then t
  else emit DrawScreen t.

(** [run_command_in_foreground] up to the point where it waits in
    [proc.communicate()]; [before_hook] tells whether a hook was given. *)
Definition begin_foreground (cmd : string) (before_hook : bool) (t : Console)
  : Outcome unit * Console :=
  match fg_proc t with
  | Some _ => (Raise (Exc "cannot run two fg processes at once"), t)
  | None =>
    if negb (has_loop t) then (Raise (Exc "AttributeError"), t)
    else
      let t := set_screen_started false (emit ScreenStop t) in
      let t := emit InputDescriptorsChanged t in
      let t := if before_hook then emit BeforeHook t else t in
      let t := set_fg_proc (Some cmd) (emit (StartCommand cmd) t) in
      (Return tt, emit Communicate t)
  end.

(** [_run] of [run_command_in_foreground] after [proc.communicate()]
    has returned. *)
Definition end_foreground (after_hook : bool) (t : Console) : Console :=
  let t := set_fg_proc None t in
  let t := emit TcSetPgrp t in
  let t := set_screen_started true (emit ScreenStart t) in
  if after_hook then emit AfterHook t else t.

(** [TuiApplication.run_command_in_foreground] for a command that runs
    to its end. *)
Definition run_command_in_foreground (cmd : string)
  (before_hook after_hook : bool) (t : Console) : Outcome unit * Console :=
  match begin_foreground cmd before_hook t with
  | (Return _, t) => (Return tt, end_foreground after_hook t)
  | (Raise e, t) => (Raise e, t)
  end.

(** What the user and the installer do to the console, one after the
    other; an exception ends the call that raised it, not the session. *)
Inductive Op : Type :=
| SetRich (rich : bool)
| ToggleRich
| Input (key : string)
| Redraw
| Foreground (cmd : string) (before_hook after_hook : bool).

Definition apply_op (t : Console) (op : Op) : Console :=
  match op with
  | SetRich rich => snd (set_rich rich t)
  | ToggleRich => snd (toggle_rich t)
  | Input key => snd (unhandled_input key t)
  | Redraw => redraw_screen t
  | Foreground cmd before_hook after_hook =>
    snd (run_command_in_foreground cmd before_hook after_hook t)
  end.

Definition apply_ops (ops : list Op) (t : Console) : Console :=
  fold_left apply_op ops t.

(** The console as [__init__] leaves it once urwid runs: no mode chosen
    yet, no foreground process. *)
Definition fresh (dry serial : bool) (dir : list (string * Json))
  : Console :=
  {| dry_run := dry; run_on_serial := serial;
     rich_mode := None; fg_proc := None;
     has_loop := true; screen_started := true;
     state_dir := dir; effects := [] |}.

(** A serial console with a state directory from an earlier release,
    and what a session on it comes to. *)
Definition serial_console : Console :=
  fresh false true [("rich-mode", JBool true); ("rich-mode-tty", JBool true)].

Definition session : list Op :=
  [SetRich false; Input "f4"; Foreground "bash" true false; Input "ctrl x";
   Redraw; ToggleRich].

End Terminal.

(** * Properties of the navigation engine *)

Unset Implicit Arguments.

Module NavigationProps.

Import Navigation.
Open Scope string_scope.
Open Scope list_scope.
Open Scope Z_scope.

(** ** What [make_view_for_controller] leaves alone *)

Lemma make_view_frame new app r app' :
  make_view_for_controller new app = (r, app') ->
  controllers app' = controllers app /\ opts_screens app' = opts_screens app.
Proof.
  unfold make_view_for_controller.
  destruct new as [c|]; [|intros [= _ <-]; auto].
  cbn -[truthy not_in_screens].
  destruct (truthy _ && _); [intros [= _ <-]; auto|].
  destruct (make_ui c) as [[v|[v|[| |]]]|[| |]]; intros [= _ <-]; auto.
Qed.

Lemma make_view_cur_screen new app r app' :
  make_view_for_controller new app = (r, app') ->
  cur_screen app' = match r with Return _ => new | Raise _ => cur_screen app end.
Proof.
  unfold make_view_for_controller.
  destruct new as [c|]; [|intros [= <- <-]; auto].
  cbn -[truthy not_in_screens].
  destruct (truthy _ && _); [intros [= <- <-]; auto|].
  destruct (make_ui c) as [[v|[v|[| |]]]|[| |]]; intros [= <- <-]; auto.
Qed.

Lemma attempts_app l1 l2 : attempts (l1 ++ l2) = (attempts l1 + attempts l2)%nat.
Proof. unfold attempts. now rewrite filter_app, length_app. Qed.

Lemma exits_app l1 l2 : exits (l1 ++ l2) = (exits l1 + exits l2)%nat.
Proof. unfold exits. now rewrite filter_app, length_app. Qed.

Lemma make_view_events c app r app' :
  make_view_for_controller (Some c) app = (r, app') ->
  attempts (events app') = S (attempts (events app))
  /\ exits (events app') = exits (events app).
Proof.
  unfold make_view_for_controller.
  cbn -[truthy not_in_screens].
  destruct (truthy _ && _).
  - intros [= _ <-]; cbn [events emit].
    rewrite attempts_app, exits_app; cbn. lia.
  - destruct (make_ui c) as [[v|[v|[| |]]]|[| |]]; intros [= _ <-];
      cbn [events emit set_cur_screen];
      rewrite ?attempts_app, ?exits_app; cbn; lia.
Qed.

(** The outcome of a construction depends on the stage and on
    [opts.screens] only. *)
Lemma make_view_outcome new app1 app2 :
  opts_screens app1 = opts_screens app2 ->
  fst (make_view_for_controller new app1) = fst (make_view_for_controller new app2).
Proof.
  intros H. unfold make_view_for_controller.
  destruct new as [c|]; [|reflexivity].
  cbn -[truthy not_in_screens]. rewrite H.
  destruct (truthy _ && _); [reflexivity|].
  destruct (make_ui c) as [[v|[v|[| |]]]|[| |]]; reflexivity.
Qed.

Lemma construction_ext app1 app2 i :
  instances (controllers app1) = instances (controllers app2) ->
  opts_screens app1 = opts_screens app2 ->
  construction app1 i = construction app2 i.
Proof.
  intros Hi Ho. unfold construction.
  assert (Hc : cur (set_index i app1) = cur (set_index i app2)).
  { unfold cur, len; cbn. now rewrite Hi. }
  rewrite Hc. apply make_view_outcome. exact Ho.
Qed.

Lemma skips_ext app1 app2 from increment k :
  instances (controllers app1) = instances (controllers app2) ->
  opts_screens app1 = opts_screens app2 ->
  skips app1 from increment k = skips app2 from increment k.
Proof.
  intros Hi Ho. revert from.
  induction k as [|k IH]; intros from; cbn; [reflexivity|].
  rewrite IH, (construction_ext app1 app2 (from + increment) Hi Ho).
  unfold in_range, len. now rewrite Hi.
Qed.

Lemma in_range_cur app i :
  in_range app i = true ->
  exists c, cur (set_index i app) = Some c.
Proof.
  unfold in_range, cur, len; cbn. intros H.
  apply andb_true_iff in H as [H0 H1].
  apply Z.leb_le in H0. apply Z.ltb_lt in H1.
  destruct (i <? 0) eqn:E0; [apply Z.ltb_lt in E0; lia|].
  destruct (_ <=? i) eqn:E1; [apply Z.leb_le in E1; lia|]. cbn.
  destruct (nth_error _ _) eqn:E; [eauto|].
  apply nth_error_None in E. lia.
Qed.

(** ** One turn of the loop *)

Lemma after_attempts_refl app : after_attempts 0 app app.
Proof. unfold after_attempts. repeat split; lia. Qed.

Lemma range_tests app i :
  in_range app i = true ->
  (i <? 0) = false /\ (len (set_index i app) <=? i) = false.
Proof.
  unfold in_range, len; cbn. intros H.
  apply andb_true_iff in H as [H0 H1].
  apply Z.leb_le in H0. apply Z.ltb_lt in H1.
  split; [apply Z.ltb_ge | apply Z.leb_gt]; lia.
Qed.

Lemma loop_below_zero fuel increment cur_index app :
  index (controllers app) + increment < 0 ->
  move_loop (S fuel) increment cur_index app
  = Some (Return None, set_index cur_index app).
Proof.
  intros H. cbn [move_loop]. cbv zeta. cbn [set_index controllers index].
  apply Z.ltb_lt in H. now rewrite H.
Qed.

Lemma loop_past_end fuel increment cur_index app :
  len app <= index (controllers app) + increment ->
  move_loop (S fuel) increment cur_index app
  = Some (Return None,
          exit (set_index (index (controllers app) + increment) app)).
Proof.
  intros H. cbn [move_loop]. cbv zeta. cbn [set_index controllers index].
  assert (H0 : (index (controllers app) + increment <? 0) = false).
  { apply Z.ltb_ge. unfold len in H. lia. }
  rewrite H0.
  assert (H1 : (len (set_index (index (controllers app) + increment) app)
                <=? index (controllers app) + increment) = true).
  { apply Z.leb_le. exact H. }
  now rewrite H1.
Qed.

Lemma loop_construct fuel increment cur_index app :
  in_range app (index (controllers app) + increment) = true ->
  move_loop (S fuel) increment cur_index app
  = let target := set_index (index (controllers app) + increment) app in
    match make_view_for_controller (cur target) target with
    | (Return v, app') => Some (Return (Some v), app')
    | (Raise Skip, app') => move_loop fuel increment cur_index app'
    | (Raise (Exc what), app') =>
      Some (Raise (Exc what), set_index cur_index app')
    | (Raise (BaseExc what), app') => Some (Raise (BaseExc what), app')
    end.
Proof.
  intros H. apply range_tests in H as [H0 H1].
  cbn [move_loop]. cbv zeta. cbn [set_index controllers index].
  rewrite H0. cbn [set_index controllers index] in H1. now rewrite H1.
Qed.

Lemma construct_raise app i e app1 :
  in_range app i = true ->
  make_view_for_controller (cur (set_index i app)) (set_index i app)
  = (Raise e, app1) ->
  index (controllers app1) = i /\ after_attempts 1 app app1.
Proof.
  intros Hr H.
  destruct (in_range_cur _ _ Hr) as [c Hc]. rewrite Hc in H.
  pose proof (make_view_frame _ _ _ _ H) as [Hf Ho].
  pose proof (make_view_cur_screen _ _ _ _ H) as Hs.
  pose proof (make_view_events _ _ _ _ H) as [Ha He].
  cbn in Hs. unfold after_attempts. rewrite Hf, Ho, Hs, Ha, He.
  cbn [set_index controllers index instances opts_screens cur_screen events].
  repeat split; lia.
Qed.

(** The loop runs through [k] skipping stages in [k] turns. *)
Lemma loop_skips k : forall increment cur_index app,
  skips app (index (controllers app)) increment k = true ->
  exists app_k,
    (forall fuel, move_loop (k + fuel) increment cur_index app
                  = move_loop fuel increment cur_index app_k)
    /\ index (controllers app_k)
       = index (controllers app) + Z.of_nat k * increment
    /\ after_attempts k app app_k.
Proof.
  induction k as [|k IH]; intros increment cur_index app H.
  - exists app. split; [reflexivity|]. split; [lia|apply after_attempts_refl].
  - cbn [skips] in H.
    apply andb_true_iff in H as [H Hrest]. apply andb_true_iff in H as [Hr Hs].
    unfold construction in Hs.
    destruct (make_view_for_controller _ _) as [r app1] eqn:E.
    cbn [fst] in Hs. destruct r as [v|[| |]]; try discriminate.
    destruct (construct_raise _ _ _ _ Hr E) as [Hi Hext].
    destruct Hext as (Hinst & Hopt & Hcs & Hatt & Hex).
    rewrite (skips_ext app app1) in Hrest by (symmetry; assumption).
    rewrite <- Hi in Hrest.
    destruct (IH increment cur_index app1 Hrest) as (app_k & Hloop & Hidx & Hk).
    destruct Hk as (Hinst' & Hopt' & Hcs' & Hatt' & Hex').
    exists app_k. split; [|split].
    + intros fuel. change (S k + fuel)%nat with (S (k + fuel)).
      rewrite (loop_construct _ _ _ _ Hr). cbv zeta. rewrite E. apply Hloop.
    + rewrite Hidx, Hi. lia.
    + unfold after_attempts. rewrite Hinst', Hopt', Hcs', Hatt', Hex'.
      repeat split; try assumption; lia.
Qed.

(** ** The whole move *)

Lemma in_range_ext app1 app2 i :
  instances (controllers app1) = instances (controllers app2) ->
  in_range app1 i = in_range app2 i.
Proof. intros H. unfold in_range, len. now rewrite H. Qed.

Lemma leave_current_events app :
  events (leave_current app)
  = events app
    ++ match cur_screen app with
       | Some old => [ContextExit (name old) "completed"; EndUi (name old)]
       | None => []
       end.
Proof.
  unfold leave_current. destruct (cur_screen app) as [old|]; cbn.
  - now rewrite <- app_assoc.
  - now rewrite app_nil_r.
Qed.

Lemma leave_current_frame app :
  controllers (leave_current app) = controllers app
  /\ opts_screens (leave_current app) = opts_screens app
  /\ cur_screen (leave_current app) = None
  /\ attempts (events (leave_current app)) = attempts (events app)
  /\ exits (events (leave_current app)) = exits (events app).
Proof.
  rewrite leave_current_events, attempts_app, exits_app.
  unfold leave_current. destruct (cur_screen app) as [old|]; cbn; auto.
Qed.

(** A move whose pretransition went through leaves the current screen
    and then runs through [k] skipping stages in [k] turns of the loop. *)
Lemma move_screen_skips k increment coro app :
  went_through coro = true ->
  skips app (index (controllers app)) increment k = true ->
  exists app_k,
    (forall fuel, _move_screen (k + fuel) increment coro app
                  = move_loop fuel increment (index (controllers app)) app_k)
    /\ index (controllers app_k)
       = index (controllers app) + Z.of_nat k * increment
    /\ instances (controllers app_k) = instances (controllers app)
    /\ opts_screens app_k = opts_screens app
    /\ cur_screen app_k = None
    /\ attempts (events app_k) = (attempts (events app) + k)%nat
    /\ exits (events app_k) = exits (events app).
Proof.
  intros Hc Hs.
  destruct (leave_current_frame app) as (Hf & Ho & Hn & Ha & He).
  rewrite (skips_ext app (leave_current app)) in Hs
    by (now rewrite ?Hf, ?Ho).
  replace (index (controllers app)) with (index (controllers (leave_current app)))
    in Hs by now rewrite Hf.
  destruct (loop_skips k increment (index (controllers (leave_current app)))
              (leave_current app) Hs)
    as (app_k & Hloop & Hidx & Hi' & Ho' & Hn' & Ha' & He').
  exists app_k. rewrite Hf in *. repeat split; try congruence.
  intros fuel. unfold _move_screen.
  destruct coro as [[u|e]|]; try discriminate; cbv zeta; rewrite Hf; apply Hloop.
Qed.

Lemma fuel_split k fuel : (S k <= fuel)%nat -> exists m, fuel = (k + S m)%nat.
Proof. intros H. exists (fuel - S k)%nat. lia. Qed.

(** C1, as the code has it: when the stage the move arrives at, after
    [k] skipped stages, fails to build its view with an instance of
    [Exception] other than [Skip], [_move_screen] raises that very
    exception and the cursor is back where it was when the move began. *)
Theorem move_screen_failure_restores_cursor k fuel increment coro app what :
  went_through coro = true ->
  skips app (index (controllers app)) increment k = true ->
  in_range app (index (controllers app) + Z.of_nat (S k) * increment) = true ->
  construction app (index (controllers app) + Z.of_nat (S k) * increment)
  = Raise (Exc what) ->
  (S k <= fuel)%nat ->
  exists app',
    _move_screen fuel increment coro app = Some (Raise (Exc what), app')
    /\ index (controllers app') = index (controllers app)
    /\ instances (controllers app') = instances (controllers app).
Proof.
  intros Hc Hs Hr Hx Hfuel.
  destruct (move_screen_skips k increment coro app Hc Hs)
    as (app_k & Hrun & Hidx & Hi & Ho & _).
  destruct (fuel_split _ _ Hfuel) as [m ->]. rewrite Hrun.
  replace (index (controllers app) + Z.of_nat (S k) * increment)
    with (index (controllers app_k) + increment) in Hr, Hx by lia.
  rewrite (in_range_ext app app_k) in Hr by congruence.
  rewrite (construction_ext app app_k) in Hx by congruence.
  rewrite (loop_construct _ _ _ _ Hr). cbv zeta.
  unfold construction in Hx.
  destruct (make_view_for_controller _ _) as [r app1] eqn:E.
  cbn [fst] in Hx. subst r.
  destruct (construct_raise _ _ _ _ Hr E) as [_ (Hi1 & _)].
  exists (set_index (index (controllers app)) app1).
  cbn [set_index controllers index instances]. repeat split; congruence.
Qed.

Lemma move_screen_failure_restores_cursor_witness :
  exists app',
    _move_screen 2 1 None
      {| opts_screens := [];
         controllers := {| instances := [keyboard; welcome; network]; index := 0 |};
         cur_screen := Some keyboard;
         events := [] |}
    = Some (Raise (Exc "ValueError"), app')
    /\ index (controllers app') = 0
    /\ instances (controllers app') = [keyboard; welcome; network].
Proof.
  apply (move_screen_failure_restores_cursor 1 2 1 None
           {| opts_screens := [];
              controllers :=
                {| instances := [keyboard; welcome; network]; index := 0 |};
              cur_screen := Some keyboard;
              events := [] |} "ValueError");
    first [reflexivity | lia].
Defined.

(** C1, as stated, fails for an exception outside [Exception]: a move
    from Keyboard cancelled while Mirror builds its view raises
    [CancelledError] to the caller with the cursor left on Mirror, whose
    view was not built. *)
Lemma move_screen_cancelled_keeps_cursor :
  in_range before_mirror 1 = true
  /\ construction before_mirror 1 = Raise (BaseExc "CancelledError")
  /\ _move_screen 1 1 None before_mirror
     = Some (Raise (BaseExc "CancelledError"), mirror_cancelled)
  /\ index (controllers before_mirror) = 0
  /\ index (controllers mirror_cancelled) = 1
  /\ index (controllers mirror_cancelled) <> index (controllers before_mirror).
Proof. repeat split; try reflexivity. discriminate. Qed.

(** The loop never hands a [Skip] to its caller. *)
Lemma loop_never_raises_skip fuel : forall increment cur_index app res app',
  move_loop fuel increment cur_index app = Some (res, app') ->
  res <> Raise Skip.
Proof.
  induction fuel as [|fuel IH]; intros increment cur_index app res app' H;
    [discriminate|].
  cbn [move_loop] in H. cbv zeta in H.
  destruct (_ <? 0); [injection H as <- _; discriminate|].
  destruct (_ <=? _); [injection H as <- _; discriminate|].
  destruct (make_view_for_controller _ _) as [r app1].
  destruct r as [v|[|what|what]];
    [injection H as <- _; discriminate | now apply IH in H
    | injection H as <- _; discriminate | injection H as <- _; discriminate].
Qed.

(** C2: a [Skip] raised while a view is built is not a failure of the
    move: having met [k] stages in a row that raise it, the move has
    not returned, raised, restored the cursor or called [exit]; it is
    in the next turn of the same loop, with the same increment and
    with the origin still the cursor the move started from, the cursor
    being [k] increments further.  So whatever the position after the
    skipped stages holds decides the move as if no stage had been
    skipped: a stage that builds its view becomes the current screen
    and its view is returned, with the cursor [k + 1] increments from
    the origin; a stage failing with an [Exception] sends the cursor
    back to the origin the move started from, not to a skipped stage;
    an exception outside [Exception] leaves the cursor on the stage
    that raised it; a position below 0 puts the cursor back at the
    origin and answers [None]; a position past the end finishes.
    [Skip] itself never reaches the caller.
    With stages [A(skip), B, C] and the cursor before A this is
    [k = 1]: the move settles on B and returns B's view. *)
Theorem move_screen_skip_advances k fuel increment coro app :
  went_through coro = true ->
  skips app (index (controllers app)) increment k = true ->
  (S k <= fuel)%nat ->
  (exists app_k,
     (forall turns, _move_screen (k + turns) increment coro app
                    = move_loop turns increment (index (controllers app)) app_k)
     /\ index (controllers app_k)
        = index (controllers app) + Z.of_nat k * increment
     /\ instances (controllers app_k) = instances (controllers app)
     /\ cur_screen app_k = None
     /\ attempts (events app_k) = (attempts (events app) + k)%nat
     /\ exits (events app_k) = exits (events app))
  /\ (forall res app',
        _move_screen fuel increment coro app = Some (res, app') ->
        res <> Raise Skip)
  /\ (forall v,
        in_range app (index (controllers app) + Z.of_nat (S k) * increment)
        = true ->
        construction app (index (controllers app) + Z.of_nat (S k) * increment)
        = Return v ->
        exists app',
          _move_screen fuel increment coro app = Some (Return (Some v), app')
          /\ index (controllers app')
             = index (controllers app) + Z.of_nat (S k) * increment
          /\ cur_screen app' = cur app'
          /\ cur_screen app' <> None
          /\ exits (events app') = exits (events app))
  /\ (forall what,
        in_range app (index (controllers app) + Z.of_nat (S k) * increment)
        = true ->
        construction app (index (controllers app) + Z.of_nat (S k) * increment)
        = Raise (Exc what) ->
        exists app',
          _move_screen fuel increment coro app = Some (Raise (Exc what), app')
          /\ index (controllers app') = index (controllers app)
          /\ cur_screen app' = None)
  /\ (forall what,
        in_range app (index (controllers app) + Z.of_nat (S k) * increment)
        = true ->
        construction app (index (controllers app) + Z.of_nat (S k) * increment)
        = Raise (BaseExc what) ->
        exists app',
          _move_screen fuel increment coro app
          = Some (Raise (BaseExc what), app')
          /\ index (controllers app')
             = index (controllers app) + Z.of_nat (S k) * increment
          /\ cur_screen app' = None)
  /\ (index (controllers app) + Z.of_nat (S k) * increment < 0 ->
        exists app',
          _move_screen fuel increment coro app = Some (Return None, app')
          /\ index (controllers app') = index (controllers app)
          /\ exits (events app') = exits (events app))
  /\ (len app <= index (controllers app) + Z.of_nat (S k) * increment ->
        exists app',
          _move_screen fuel increment coro app = Some (Return None, app')
          /\ index (controllers app')
             = index (controllers app) + Z.of_nat (S k) * increment
          /\ exits (events app') = S (exits (events app))).
Proof.
  intros Hc Hs Hfuel.
  destruct (move_screen_skips k increment coro app Hc Hs)
    as (app_k & Hrun & Hidx & Hi & Ho & Hn & Ha & He).
  destruct (fuel_split _ _ Hfuel) as [m ->].
  assert (Ht : index (controllers app) + Z.of_nat (S k) * increment
               = index (controllers app_k) + increment) by lia.
  assert (Hlen : len app_k = len app) by (unfold len; now rewrite Hi).
  rewrite Ht, Hrun.
  split; [|split; [|split; [|split; [|split; [|split]]]]].
  - exists app_k. repeat split; assumption.
  - intros res app'. apply loop_never_raises_skip.
  - intros v Hr Hx.
    rewrite (in_range_ext app app_k) in Hr by congruence.
    rewrite (construction_ext app app_k) in Hx by congruence.
    rewrite (loop_construct _ _ _ _ Hr). cbv zeta.
    unfold construction in Hx.
    destruct (in_range_cur _ _ Hr) as [c Hcur].
    destruct (make_view_for_controller _ _) as [r app1] eqn:E.
    cbn [fst] in Hx. subst r.
    rewrite Hcur in E.
    pose proof (make_view_frame _ _ _ _ E) as [Hf1 Ho1].
    pose proof (make_view_cur_screen _ _ _ _ E) as Hs1.
    pose proof (make_view_events _ _ _ _ E) as [_ He1].
    exists app1. cbn in Hs1.
    assert (Hcur1 : cur app1 = Some c).
    { rewrite <- Hcur. unfold cur, len. now rewrite Hf1. }
    rewrite Hf1, Hs1, Hcur1, He1. cbn [set_index controllers index events].
    repeat split; congruence.
  - intros what Hr Hx.
    rewrite (in_range_ext app app_k) in Hr by congruence.
    rewrite (construction_ext app app_k) in Hx by congruence.
    rewrite (loop_construct _ _ _ _ Hr). cbv zeta.
    unfold construction in Hx.
    destruct (make_view_for_controller _ _) as [r app1] eqn:E.
    cbn [fst] in Hx. subst r.
    destruct (construct_raise _ _ _ _ Hr E) as [_ (_ & _ & Hcs1 & _)].
    exists (set_index (index (controllers app)) app1).
    cbn [set_index controllers index cur_screen].
    repeat split; congruence.
  - intros what Hr Hx.
    rewrite (in_range_ext app app_k) in Hr by congruence.
    rewrite (construction_ext app app_k) in Hx by congruence.
    rewrite (loop_construct _ _ _ _ Hr). cbv zeta.
    unfold construction in Hx.
    destruct (make_view_for_controller _ _) as [r app1] eqn:E.
    cbn [fst] in Hx. subst r.
    destruct (construct_raise _ _ _ _ Hr E) as [Hi1 (_ & _ & Hcs1 & _)].
    exists app1. repeat split; congruence.
  - intros Hlow. rewrite loop_below_zero by lia.
    eexists. split; [reflexivity|].
    cbn [set_index controllers index events]. auto.
  - intros Hend. rewrite loop_past_end by lia.
    eexists. split; [reflexivity|].
    unfold exit. cbn [emit set_index controllers index events].
    rewrite exits_app, He. change (exits [AppExit]) with 1%nat.
    split; lia.
Qed.

Lemma move_screen_skip_advances_witness :
  exists app',
    _move_screen 2 1 None (initial [] [welcome; keyboard; network])
    = Some (Return (Some (BaseView "keyboard")), app')
    /\ index (controllers app') = 1
    /\ cur_screen app' = cur app'
    /\ cur_screen app' <> None
    /\ exits (events app') = 0%nat.
Proof.
  destruct (move_screen_skip_advances 1 2 1 None
              (initial [] [welcome; keyboard; network]))
    as (_ & _ & Hsettles & _); first [reflexivity | lia | idtac].
  apply (Hsettles (BaseView "keyboard")); reflexivity.
Defined.

(** C5: a pretransition that raises ends the move at once: the
    exception goes to the caller and the application is exactly as it
    was: cursor, current screen and the log of calls made (so no
    [context.exit], no [end_ui]), whatever fuel the loop would have. *)
Theorem move_screen_pretransition_failure fuel increment e app :
  _move_screen fuel increment (Some (Raise e)) app = Some (Raise e, app).
Proof. reflexivity. Qed.

(** C6: when the move, after [k] skipped stages, steps to a position at
    or past the number of stages, [_move_screen] calls [exit] once, as
    the last thing it does, and returns [None] without raising; the only
    constructions attempted are those of the [k] skipped stages, none
    past the end. *)
Theorem move_screen_past_end_finishes k fuel increment coro app :
  went_through coro = true ->
  skips app (index (controllers app)) increment k = true ->
  len app <= index (controllers app) + Z.of_nat (S k) * increment ->
  (S k <= fuel)%nat ->
  exists app',
    _move_screen fuel increment coro app = Some (Return None, app')
    /\ index (controllers app')
       = index (controllers app) + Z.of_nat (S k) * increment
    /\ (exists log, events app' = log ++ [AppExit])
    /\ exits (events app') = S (exits (events app))
    /\ attempts (events app') = (attempts (events app) + k)%nat.
Proof.
  intros Hc Hs Hr Hfuel.
  destruct (move_screen_skips k increment coro app Hc Hs)
    as (app_k & Hrun & Hidx & Hi & Ho & Hn & Ha & He).
  destruct (fuel_split _ _ Hfuel) as [m ->]. rewrite Hrun.
  assert (Hlen : len app_k = len app) by (unfold len; now rewrite Hi).
  rewrite loop_past_end by lia.
  eexists. split; [reflexivity|].
  unfold exit. cbn [emit set_index controllers index events].
  rewrite exits_app, attempts_app, He, Ha.
  change (exits [AppExit]) with 1%nat. change (attempts [AppExit]) with 0%nat.
  repeat split; try lia. now exists (events app_k).
Qed.

Lemma move_screen_past_end_finishes_witness :
  exists app',
    _move_screen 1 1 None
      {| opts_screens := [];
         controllers := {| instances := [welcome; keyboard]; index := 1 |};
         cur_screen := Some keyboard;
         events := [] |}
    = Some (Return None, app')
    /\ index (controllers app') = 2
    /\ (exists log, events app' = log ++ [AppExit])
    /\ exits (events app') = 1%nat
    /\ attempts (events app') = 0%nat.
Proof.
  apply (move_screen_past_end_finishes 0 1 1 None
           {| opts_screens := [];
              controllers := {| instances := [welcome; keyboard]; index := 1 |};
              cur_screen := Some keyboard;
              events := [] |});
    first [reflexivity | cbn; lia].
Defined.

(** C7: when the move, after [k] skipped stages, steps to a position
    below 0, [_move_screen] puts the cursor back where it was when the
    move began and returns [None] without raising; no view is built (no
    screen becomes current, and beyond the [k] skipped stages no
    construction is attempted), and [exit] is not called. *)
Theorem move_screen_below_zero_no_move k fuel increment coro app :
  went_through coro = true ->
  skips app (index (controllers app)) increment k = true ->
  index (controllers app) + Z.of_nat (S k) * increment < 0 ->
  (S k <= fuel)%nat ->
  exists app',
    _move_screen fuel increment coro app = Some (Return None, app')
    /\ index (controllers app') = index (controllers app)
    /\ cur_screen app' = None
    /\ attempts (events app') = (attempts (events app) + k)%nat
    /\ exits (events app') = exits (events app).
Proof.
  intros Hc Hs Hr Hfuel.
  destruct (move_screen_skips k increment coro app Hc Hs)
    as (app_k & Hrun & Hidx & Hi & Ho & Hn & Ha & He).
  destruct (fuel_split _ _ Hfuel) as [m ->]. rewrite Hrun.
  rewrite loop_below_zero by lia.
  eexists. split; [reflexivity|].
  cbn [set_index controllers index events cur_screen]. auto.
Qed.

Lemma move_screen_below_zero_no_move_witness :
  exists app',
    _move_screen 1 (-1) None
      {| opts_screens := [];
         controllers := {| instances := [keyboard; network]; index := 0 |};
         cur_screen := Some keyboard;
         events := [] |}
    = Some (Return None, app')
    /\ index (controllers app') = 0
    /\ cur_screen app' = None
    /\ attempts (events app') = 0%nat
    /\ exits (events app') = 0%nat.
Proof.
  apply (move_screen_below_zero_no_move 0 1 (-1) None
           {| opts_screens := [];
              controllers := {| instances := [keyboard; network]; index := 0 |};
              cur_screen := Some keyboard;
              events := [] |});
    first [reflexivity | cbn; lia].
Defined.

(** ** The current screen *)

Lemma loop_cur_screen fuel : forall increment cur_index app res app',
  cur_screen app = None ->
  move_loop fuel increment cur_index app = Some (res, app') ->
  cur_screen app'
  = match res with Return (Some _) => cur app' | _ => None end
  /\ (forall v, res = Return (Some v) -> cur app' <> None)
  /\ exists rest, events app' = events app ++ rest.
Proof.
  induction fuel as [|fuel IH]; intros increment cur_index app res app' Hn H;
    [discriminate|].
  cbn [move_loop] in H. cbv zeta in H.
  cbn [set_index controllers index] in H.
  destruct (_ <? 0) eqn:E0.
  { injection H as <- <-. cbn. repeat split; try easy.
    exists []. now rewrite app_nil_r. }
  destruct (_ <=? _) eqn:E1.
  { injection H as <- <-. cbn. repeat split; try easy. now exists [AppExit]. }
  assert (Hr : in_range app (index (controllers app) + increment) = true).
  { unfold in_range. apply Z.ltb_ge in E0. apply Z.leb_gt in E1.
    unfold len in *. cbn in E1.
    apply andb_true_iff. split; [apply Z.leb_le | apply Z.ltb_lt]; lia. }
  destruct (in_range_cur _ _ Hr) as [c Hcur]. rewrite Hcur in H.
  destruct (make_view_for_controller _ _) as [r app1] eqn:E.
  pose proof (make_view_frame _ _ _ _ E) as [Hf1 Ho1].
  pose proof (make_view_cur_screen _ _ _ _ E) as Hs1.
  assert (Hev : exists l, events app1 = events app ++ l).
  { revert E. unfold make_view_for_controller.
    cbn -[truthy not_in_screens].
    destruct (truthy _ && _); [intros [= _ <-]; cbn; eauto|].
    destruct (make_ui c) as [[v|[v|[| |]]]|[| |]]; intros [= _ <-]; cbn;
      rewrite <- ?app_assoc; eauto. }
  destruct Hev as [l Hl].
  destruct r as [v|[|what|what]].
  - injection H as <- <-.
    assert (Hcur1 : cur app1 = Some c).
    { rewrite <- Hcur. unfold cur, len. now rewrite Hf1. }
    rewrite Hs1, Hcur1. repeat split; try easy. eauto.
  - cbn in Hs1. rewrite Hn in Hs1.
    destruct (IH _ _ _ _ _ Hs1 H) as (Ha & Hb & rest & Hrest).
    repeat split; try assumption.
    exists (l ++ rest). now rewrite Hrest, Hl, app_assoc.
  - injection H as <- <-. cbn in *. rewrite Hs1, Hn.
    repeat split; try easy. eauto.
  - injection H as <- <-. cbn in *. rewrite Hs1, Hn.
    repeat split; try easy. eauto.
Qed.

(** C9: whenever [_move_screen], its pretransition having gone through,
    ends without a view (the "no move" [None], the "finished" [None],
    or an exception out of view construction), [self.cur_screen] is
    [None]; the screen that was current has been signalled completed
    ([context.exit("completed")], then [end_ui()]) before anything else
    and is not restored.  [cur_screen] is a stage again only when a view
    was built, and then it is the stage at the cursor. *)
Theorem move_screen_cur_screen fuel increment coro app res app' :
  went_through coro = true ->
  _move_screen fuel increment coro app = Some (res, app') ->
  ((forall v, res <> Return (Some v)) -> cur_screen app' = None)
  /\ (forall v, res = Return (Some v) ->
        cur_screen app' = cur app' /\ cur app' <> None)
  /\ (forall old, cur_screen app = Some old ->
        exists rest,
          events app'
          = events app
            ++ [ContextExit (name old) "completed"; EndUi (name old)]
            ++ rest).
Proof.
  intros Hc H.
  assert (Hloop : move_loop fuel increment
                    (index (controllers (leave_current app)))
                    (leave_current app) = Some (res, app')).
  { destruct coro as [[u|e]|]; try discriminate; exact H. }
  destruct (leave_current_frame app) as (_ & _ & Hn & _).
  destruct (loop_cur_screen _ _ _ _ _ _ Hn Hloop) as (Hs & Hv & rest & Hrest).
  split; [|split].
  - intros Hnot. rewrite Hs. destruct res as [[v|]|e]; try reflexivity.
    now destruct (Hnot v).
  - intros v ->. split; [exact Hs | now apply (Hv v)].
  - intros old Hold. exists rest.
    rewrite Hrest, leave_current_events, Hold. now rewrite <- app_assoc.
Qed.

Lemma move_screen_cur_screen_witness :
  ((forall v : View, @Raise (option View) (Exc "ValueError") <> Return (Some v)) ->
   cur_screen network_failed = None)
  /\ (forall v : View, @Raise (option View) (Exc "ValueError") = Return (Some v) ->
        cur_screen network_failed = cur network_failed
        /\ cur network_failed <> None)
  /\ (forall old, cur_screen at_keyboard = Some old ->
        exists rest,
          events network_failed
          = events at_keyboard
            ++ [ContextExit (name old) "completed"; EndUi (name old)]
            ++ rest).
Proof.
  exact (move_screen_cur_screen 1 1 None at_keyboard
           (Raise (Exc "ValueError")) network_failed eq_refl eq_refl).
Defined.

(** ** The loop leaves *)

Lemma loop_returns increment : increment <> 0 ->
  forall fuel cur_index app,
    (1 <= fuel)%nat ->
    (in_range app (index (controllers app) + increment) = true ->
     turns_left app increment (index (controllers app) + increment)
     < Z.of_nat fuel) ->
    exists r, move_loop fuel increment cur_index app = Some r.
Proof.
  intros Hnz. induction fuel as [|fuel IH]; intros cur_index app H1 Hm; [lia|].
  destruct (in_range app (index (controllers app) + increment)) eqn:Hr.
  - specialize (Hm eq_refl).
    rewrite (loop_construct _ _ _ _ Hr). cbv zeta.
    destruct (make_view_for_controller _ _) as [r app1] eqn:E.
    destruct r as [v|[|what|what]]; eauto.
    destruct (construct_raise _ _ _ _ Hr E) as [Hi (Hinst & _)].
    assert (Hlen : len app1 = len app) by (unfold len; now rewrite Hinst).
    pose proof Hr as Hr'. unfold in_range in Hr'.
    apply andb_true_iff in Hr' as [H0 H2].
    apply Z.leb_le in H0. apply Z.ltb_lt in H2.
    unfold turns_left in Hm.
    apply IH.
    + destruct (0 <? increment); lia.
    + intros Hr1. unfold turns_left. rewrite Hlen, Hi.
      destruct (0 <? increment) eqn:Ep;
        [apply Z.ltb_lt in Ep | apply Z.ltb_ge in Ep]; lia.
  - unfold in_range in Hr. apply andb_false_iff in Hr as [Hr|Hr].
    + apply Z.leb_gt in Hr. rewrite loop_below_zero by lia. eauto.
    + apply Z.ltb_ge in Hr. rewrite loop_past_end by lia. eauto.
Qed.

(** With a non-zero increment, [_move_screen] returns or raises within
    one turn more than there are stages. *)
Lemma move_screen_returns fuel increment coro app :
  increment <> 0 ->
  (List.length (instances (controllers app)) < fuel)%nat ->
  exists r, _move_screen fuel increment coro app = Some r.
Proof.
  intros Hnz Hfuel. unfold _move_screen.
  destruct (leave_current_frame app) as (Hf & _).
  assert (Hgo : exists r,
             move_loop fuel increment (index (controllers (leave_current app)))
               (leave_current app) = Some r).
  { apply loop_returns; [assumption|lia|].
    intros Hr. unfold in_range in Hr.
    apply andb_true_iff in Hr as [H0 H2].
    apply Z.leb_le in H0. apply Z.ltb_lt in H2.
    unfold turns_left, len in *. rewrite Hf in *.
    destruct (0 <? increment); lia. }
  destruct coro as [[u|e]|]; eauto.
Qed.

(** An exception outside [Exception] (a cancellation, say) raised while
    the view is built passes through [except Exception]: it reaches the
    caller with the cursor on the stage that was being built. *)
Lemma loop_base_exception_passes fuel increment cur_index app what app1 :
  in_range app (index (controllers app) + increment) = true ->
  make_view_for_controller
    (cur (set_index (index (controllers app) + increment) app))
    (set_index (index (controllers app) + increment) app)
  = (Raise (BaseExc what), app1) ->
  move_loop (S fuel) increment cur_index app
  = Some (Raise (BaseExc what), app1)
  /\ index (controllers app1) = index (controllers app) + increment.
Proof.
  intros Hr E. rewrite (loop_construct _ _ _ _ Hr). cbv zeta. rewrite E.
  split; [reflexivity|]. now destruct (construct_raise _ _ _ _ Hr E).
Qed.

End NavigationProps.

(** * Properties of the progress indication wrapper *)

Module IndicationProps.

Import Indication.
Open Scope string_scope.
Open Scope list_scope.
Open Scope N_scope.

Example slow_operation_runs :
  _wait_with_indication true 0 slow_operation = Some slow_operation_end.
Proof. reflexivity. Qed.

Example fast_operation_runs :
  _wait_with_indication true 0 fast_operation = Some fast_operation_end.
Proof. reflexivity. Qed.

Example cancelled_operation_runs :
  _wait_with_indication false 0 cancelled_operation
  = Some cancelled_operation_end.
Proof. reflexivity. Qed.

(** The minimum display time is enforced: the schedule cannot take
    [MinShowDone] early. *)
Example min_show_cannot_end_early :
  _wait_with_indication true 0
    [RunShowTask; Tick 100; WakeShowTask; Tick 50;
     OperationDone (Return "view"); Tick 949; MinShowDone]
  = None.
Proof. reflexivity. Qed.

Section Invariant.

Variable R : Type.
Variable hide : bool.
Variable t0 : Time.

Lemma enter_inv : Inv hide t0 (@enter R t0).
Proof.
  constructor; cbn; unfold shown_at, hidden_at, operation_done_at; cbn;
    try (intros; lia); try easy.
Qed.

Lemma tick_inv d (s : State R) : Inv hide t0 s -> Inv hide t0 (advance d s).
Proof.
  intros [Hc Hp Hsl Hsh Hm Hh Hd Hst Hca].
  constructor; cbn [advance now trace show_task min_show_task block_input caller];
    unfold shown_at, hidden_at, operation_done_at in *;
    cbn [advance now trace show_task min_show_task block_input caller];
    auto.
  - lia.
  - intros t e H. specialize (Hp t e H). lia.
  - destruct (caller s); auto.
    destruct Hca as (Hb & Hdone & Hmin). repeat split; auto.
    + destruct (Hmin c H). lia.
    + destruct (Hmin c H). auto.
Qed.

Lemma set_show_task_inv t (s : State R) :
  Inv hide t0 s ->
  match show_task s, t with
  | Created, Sleeping since => since = now s
  | Showing, ShowOver => True
  | _, _ => False
  end ->
  Inv hide t0 (set_show_task t s).
Proof.
  intros [Hc Hp Hsl Hsh Hm Hh Hd Hst Hca] Ht.
  constructor;
    unfold shown_at, hidden_at, operation_done_at in *;
    cbn [set_show_task now trace show_task min_show_task block_input caller];
    auto.
  - intros since ->. destruct (show_task s); try easy. subst. exact Hc.
  - intros c Hc'. destruct (Hm c Hc') as (H1 & H2 & H3).
    repeat split; auto.
    destruct H3 as [H3|H3]; rewrite H3 in Ht; destruct t; try easy; auto.
  - intros Hn. destruct (Hst Hn) as [H1 H2].
    destruct (show_task s); destruct t; easy.
Qed.

Lemma set_caller_inv next (s : State R) :
  Inv hide t0 s ->
  match caller s, next with
  | AwaitingHide _, Interrupted _ => True
  | AwaitingMinShow _, Interrupted _ => True
  | _, _ => False
  end ->
  Inv hide t0 (set_caller next s).
Proof.
  intros [Hc Hp Hsl Hsh Hm Hh Hd Hst Hca] Ht.
  constructor;
    unfold shown_at, hidden_at, operation_done_at in *;
    cbn [set_caller now trace show_task min_show_task block_input caller];
    auto.
  - intros _. apply Hst. destruct (caller s); easy.
  - destruct (caller s) as [|r|r|r|e]; try easy;
      destruct next as [|r'|r'|r'|e']; try easy.
    + destruct Hca as (Hn & _). destruct (min_show_task s) as [created|] eqn:E;
        [|easy]. now destruct (Hm created eq_refl) as (_ & Hb & _).
    + destruct Hca as (Hh1 & [th Hth] & Hdone).
      destruct (Hh th Hth) as (_ & created & Hcr & Hle).
      now destruct (Hm created Hcr) as (_ & Hb & _).
Qed.
Ltac split_trace H :=
  apply in_app_or in H; destruct H as [H|[H|[]]];
  [|inversion H; subst; clear H].

Lemma sleeping_awaits_operation (s : State R) since :
  Inv hide t0 s -> show_task s = Sleeping since ->
  caller s = AwaitingOperation /\ min_show_task s = None.
Proof.
  intros [Hc Hp Hsl Hsh Hm Hh Hd Hst Hca] Hs. split.
  - destruct (caller s) eqn:E; try reflexivity;
      (assert (Hn : caller s <> AwaitingOperation) by (rewrite E; easy);
       rewrite E in Hn; destruct (Hst Hn) as [_ H]; now destruct (H since)).
  - destruct (min_show_task s) as [created|] eqn:E; [|reflexivity].
    destruct (Hm created eq_refl) as (_ & _ & [H|H]); congruence.
Qed.

Lemma show_inv (s : State R) since :
  Inv hide t0 s ->
  show_task s = Sleeping since ->
  since + MAX_BLOCK_TIME <= now s ->
  Inv hide t0 (_show s).
Proof.
  intros HI Hs Hwake.
  destruct (sleeping_awaits_operation s since HI Hs) as [Hcal Hnone].
  destruct HI as [Hc Hp Hsl Hsh Hm Hh Hd Hst Hca].
  rewrite Hcal in Hca. destruct Hca as (Hnd & Hnh & _).
  specialize (Hsl since Hs).
  constructor;
    unfold shown_at, hidden_at, operation_done_at in *;
    cbn [_show now trace show_task min_show_task block_input caller].
  - exact Hc.
  - intros t e H. split_trace H; [eauto|lia].
  - intros since' H. discriminate.
  - intros ts H. split_trace H.
    + destruct (Hsh ts H) as [H1 _]. congruence.
    + split; [reflexivity|lia].
  - intros created [= <-]. repeat split; auto.
    apply in_or_app. right. now left.
  - intros th H. split_trace H. now destruct (Hnh th).
  - intros d r H. split_trace H. now destruct (Hnd d r).
  - intros _. split; easy.
  - rewrite Hcal. repeat split.
    + intros d r H. split_trace H. now apply (Hnd d r).
    + intros th H. split_trace H. now apply (Hnh th).
    + discriminate.
Qed.

Lemma finally_enter_inv r (s : State R) :
  Inv hide t0 s ->
  caller s = AwaitingOperation ->
  Inv hide t0 (finally_enter r s).
Proof.
  intros [Hc Hp Hsl Hsh Hm Hh Hd Hst Hca] Hcal.
  rewrite Hcal in Hca. destruct Hca as (Hnd & Hnh & Hblock).
  unfold finally_enter.
  destruct (min_show_task s) as [created|] eqn:E.
  - destruct (Hm created eq_refl) as (Hshown & Hb & Htask).
    constructor;
      unfold shown_at, hidden_at, operation_done_at in *;
      cbn [now trace show_task min_show_task block_input caller].
    + exact Hc.
    + intros t e H. split_trace H; [eauto|lia].
    + exact Hsl.
    + intros ts H. split_trace H. now apply Hsh.
    + intros c [= <-]. repeat split; auto.
      apply in_or_app. now left.
    + intros th H. split_trace H. now destruct (Hnh th).
    + intros d r' H ts H'. split_trace H; [now destruct (Hnd d r')|].
      split_trace H'. eauto.
    + intros _. destruct Htask as [-> | ->]; split; easy.
    + repeat split.
      * discriminate.
      * intros th H. split_trace H. now apply (Hnh th).
      * exists (now s). apply in_or_app. right. now left.
  - constructor;
      unfold shown_at, hidden_at, operation_done_at in *;
      cbn [now trace show_task min_show_task block_input caller].
    + exact Hc.
    + intros t e H. split_trace H; [eauto|lia].
    + intros since H. destruct (show_task s); discriminate.
    + intros ts H. split_trace H. destruct (Hsh ts H) as [H1 _]. congruence.
    + discriminate.
    + intros th H. split_trace H. now destruct (Hnh th).
    + intros d r' H ts H'. split_trace H; [now destruct (Hnd d r')|].
      split_trace H'. eauto.
    + intros _. destruct (show_task s); split; easy.
    + repeat split; try discriminate.
      exists (now s). apply in_or_app. right. now left.
Qed.

Lemma finally_hide_inv r created (s : State R) :
  Inv hide t0 s ->
  caller s = AwaitingMinShow r ->
  min_show_task s = Some created ->
  created + MIN_SHOW_PROGRESS_TIME <= now s ->
  Inv hide t0 (finally_hide hide r s).
Proof.
  intros [Hc Hp Hsl Hsh Hm Hh Hd Hst Hca] Hcal Hmin Hlate.
  assert (Hn : caller s <> AwaitingOperation) by (rewrite Hcal; easy).
  specialize (Hst Hn).
  rewrite Hcal in Hca. destruct Hca as (_ & Hnh & [d Hdone]).
  destruct (Hm created Hmin) as (Hshown & Hb & Htask).
  unfold finally_hide. destruct hide eqn:Ehide.
  - constructor;
      unfold shown_at, hidden_at, operation_done_at in *;
      cbn [now trace show_task min_show_task block_input caller].
    + exact Hc.
    + intros t e H. split_trace H; [eauto|lia].
    + exact Hsl.
    + intros ts H. split_trace H. auto.
    + intros c H. destruct (Hm c H) as (H1 & H2 & H3). repeat split; auto.
      apply in_or_app. now left.
    + intros th H. split_trace H; [now destruct (Hnh th)|].
      split; [reflexivity|]. eauto.
    + intros d' r' H ts H'. split_trace H. split_trace H'. eauto.
    + intros _. exact Hst.
    + repeat split.
      * exists (now s). apply in_or_app. right. now left.
      * exists d. apply in_or_app. now left.
  - constructor;
      unfold shown_at, hidden_at, operation_done_at in *;
      cbn [now trace show_task min_show_task block_input caller]; auto.
    split; [exact Hb|]. split; [eauto|].
    intros c' H. rewrite Hmin in H. injection H as <-.
    split; [exact Hlate|discriminate].
Qed.

Lemma hide_returned_inv r (s : State R) :
  Inv hide t0 s ->
  caller s = AwaitingHide r ->
  Inv hide t0 (hide_returned r s).
Proof.
  intros [Hc Hp Hsl Hsh Hm Hh Hd Hst Hca] Hcal.
  assert (Hn : caller s <> AwaitingOperation) by (rewrite Hcal; easy).
  specialize (Hst Hn).
  rewrite Hcal in Hca. destruct Hca as (Hh1 & [th Hth] & [d Hdone]).
  destruct (Hh th Hth) as (_ & created & Hcr & Hle).
  destruct (Hm created Hcr) as (Hshown & Hb & Htask).
  constructor;
    unfold shown_at, hidden_at, hide_returned_at, operation_done_at in *;
    cbn [hide_returned now trace show_task min_show_task block_input caller].
  - exact Hc.
  - intros t e H. split_trace H; [eauto|lia].
  - exact Hsl.
  - intros ts H. split_trace H. auto.
  - intros c H. destruct (Hm c H) as (H1 & H2 & H3). repeat split; auto.
    apply in_or_app. now left.
  - intros th' H. split_trace H. auto.
  - intros d' r' H ts H'. split_trace H. split_trace H'. eauto.
  - intros _. exact Hst.
  - split; [exact Hb|]. split.
    + exists d. apply in_or_app. now left.
    + intros c H. rewrite Hcr in H. injection H as <-.
      specialize (Hp _ _ Hth). split; [lia|].
      intros _. exists th, (now s). split; [|split].
      * apply in_or_app. now left.
      * apply in_or_app. right. now left.
      * exact Hp.
Qed.

Lemma step_inv a (s s' : State R) :
  Inv hide t0 s -> step hide a s = Some s' -> Inv hide t0 s'.
Proof.
  intros HI. destruct a as [d| | |r|r| |h|]; cbn [step].
  - intros [= <-]. now apply tick_inv.
  - destruct (show_task s) eqn:E; try discriminate. intros [= <-].
    apply set_show_task_inv; [assumption|now rewrite E].
  - destruct (show_task s) as [|since| | |] eqn:E; try discriminate.
    destruct (_ <=? _) eqn:Ew; try discriminate. intros [= <-].
    apply N.leb_le in Ew. now apply show_inv with since.
  - destruct (show_task s) eqn:E; try discriminate. intros [= <-].
    apply set_show_task_inv; [assumption|now rewrite E].
  - destruct (caller s) eqn:E; try discriminate. intros [= <-].
    now apply finally_enter_inv.
  - destruct (caller s) as [|r| | |] eqn:E; try discriminate.
    destruct (min_show_task s) as [created|] eqn:Em; try discriminate.
    destruct (_ <=? _) eqn:Ew; try discriminate. intros [= <-].
    apply N.leb_le in Ew. now apply finally_hide_inv with created.
  - destruct (caller s) as [| |r| |] eqn:E; try discriminate. intros [= <-].
    destruct h as [u|e].
    + now apply hide_returned_inv.
    + apply set_caller_inv; [assumption|]. now rewrite E.
  - destruct (caller s) as [|r| | |] eqn:E; try discriminate. intros [= <-].
    apply set_caller_inv; [assumption|]. now rewrite E.
Qed.

Lemma run_inv schedule : forall s s' : State R,
  Inv hide t0 s -> run hide schedule s = Some s' -> Inv hide t0 s'.
Proof.
  induction schedule as [|a rest IH]; intros s s' HI; cbn [run].
  - now intros [= <-].
  - destruct (step hide a s) as [s1|] eqn:E; [|discriminate].
    apply IH. now apply step_inv with a s.
Qed.

(** Every state of a call satisfies the invariant. *)
Lemma wait_with_indication_inv schedule (s : State R) :
  _wait_with_indication hide t0 schedule = Some s -> Inv hide t0 s.
Proof. apply run_inv, enter_inv. Qed.

End Invariant.



(** C4: when the awaited operation is over (it returned or failed)
    before [MAX_BLOCK_TIME] has passed since entry, neither [show] nor
    [hide] is ever called; [show] is called only [MAX_BLOCK_TIME] or more
    after entry and only while the operation is not yet over. *)
Theorem wait_with_indication_fast_no_show (R : Type) hide t0 schedule
  (s : State R) :
  _wait_with_indication hide t0 schedule = Some s ->
  indication_only_when_slow t0 s.
Proof.
  intros Hrun. pose proof (wait_with_indication_inv R hide t0 schedule s Hrun)
    as [Hc Hp Hsl Hsh Hm Hh Hd Hst Hca].
  split.
  - intros d r Hdone Hfast.
    assert (Hno : forall ts, ~ shown_at s ts).
    { intros ts Hs. destruct (Hsh ts Hs) as [_ Hlate].
      specialize (Hd d r Hdone ts Hs). lia. }
    split; [exact Hno|].
    intros th Hhid. destruct (Hh th Hhid) as (_ & c & Hmin & _).
    destruct (Hm c Hmin) as (Hs & _). exact (Hno c Hs).
  - intros ts Hs. split; [now apply Hsh|].
    intros d r Hdone. exact (Hd d r Hdone ts Hs).
Qed.

Lemma wait_with_indication_fast_no_show_witness :
  indication_only_when_slow 0 fast_operation_end.
Proof.
  exact (wait_with_indication_fast_no_show string true 0 fast_operation
           fast_operation_end eq_refl).
Defined.

(** C10: [_wait_with_indication] blocks input on entry, and whenever the
    call is over (it returned, the operation's exception went on, or an
    exception or cancellation left the cleanup) input is unblocked: it
    was unblocked by [_show] when the indicator was about to be shown, or
    by the cleanup branch when the operation ended before that; while
    the operation is awaited and nothing is shown input stays blocked. *)
Theorem wait_with_indication_unblocks_input (R : Type) hide t0 schedule
  (s : State R) :
  _wait_with_indication hide t0 schedule = Some s ->
  block_input (@enter R t0) = true /\ input_unblocked_on_exit s.
Proof.
  intros Hrun. pose proof (wait_with_indication_inv R hide t0 schedule s Hrun)
    as [Hc Hp Hsl Hsh Hm Hh Hd Hst Hca].
  split; [reflexivity|]. repeat split.
  - unfold completed. destruct (caller s); try discriminate; intros _.
    + now destruct Hca.
    + exact Hca.
  - intros Hcal Hnone. rewrite Hcal in Hca. now apply Hca.
  - intros ts Hs. destruct (Hsh ts Hs) as [Hmin _].
    now destruct (Hm ts Hmin) as (_ & Hb & _).
Qed.

Lemma wait_with_indication_unblocks_input_witness :
  block_input (@enter string 0) = true
  /\ input_unblocked_on_exit cancelled_operation_end.
Proof.
  exact (wait_with_indication_unblocks_input string false 0
           cancelled_operation cancelled_operation_end eq_refl).
Defined.

End IndicationProps.

(** * Properties of SingleInstanceTask *)

Module SingleInstanceProps.

Import SingleInstance.
Open Scope string_scope.
Open Scope list_scope.
Open Scope nat_scope.

(** C8: [start()] on an instance whose task is still running follows the
    restart policy.  Under [RejectIfRunning] it raises
    [TaskAlreadyRunningError] and nothing changes: the running task is
    untouched and the factory is not invoked again.  Under
    [CancelAndRestart] it does not raise, requests the cancellation of
    the running task and invokes the factory once more.  Counting from a
    first [start()] that invoked the factory once, the total is one
    invocation under [RejectIfRunning] and two under [CancelAndRestart],
    which is what [test_cancellable] expects. *)
Theorem start_while_running_follows_policy (sit : SingleInstanceTask)
  (old : TaskHandle) :
  task sit = Some old ->
  state old = Running ->
  (policy sit = RejectIfRunning ->
   start sit = (Raise (Exc "TaskAlreadyRunningError"), sit))
  /\ (policy sit = CancelAndRestart ->
      fst (start sit) = Return tt
      /\ call_count (snd (start sit)) = S (call_count sit)
      /\ running (snd (start sit)) = true
      /\ In {| ident := ident old; state := Running; cancel_requested := true |}
           (superseded (snd (start sit))))
  /\ (call_count sit = 1 ->
      call_count (snd (start sit))
      = match policy sit with RejectIfRunning => 1 | CancelAndRestart => 2 end)
  /\ test_cancellable true = (2, true)
  /\ test_cancellable false = (1, false).
Proof.
  intros Htask Hstate.
  assert (Hrun : running sit = true).
  { unfold running. now rewrite Htask, Hstate. }
  unfold start. rewrite Hrun.
  split; [|split; [|split]].
  - now intros ->.
  - intros ->. cbn [fst snd]. unfold launch, cancel. rewrite Htask, Hrun.
    cbn. rewrite Hstate. auto.
  - intros Hone. destruct (policy sit); cbn [snd]; [exact Hone|].
    unfold launch, cancel. rewrite Htask, Hrun. cbn. now rewrite Hone.
  - split; reflexivity.
Qed.

Lemma start_while_running_follows_policy_witness :
  (policy (busy true) = RejectIfRunning ->
   start (busy true) = (Raise (Exc "TaskAlreadyRunningError"), busy true))
  /\ (policy (busy true) = CancelAndRestart ->
      fst (start (busy true)) = Return tt
      /\ call_count (snd (start (busy true))) = S (call_count (busy true))
      /\ running (snd (start (busy true))) = true
      /\ In {| ident := 0; state := Running; cancel_requested := true |}
           (superseded (snd (start (busy true)))))
  /\ (call_count (busy true) = 1 ->
      call_count (snd (start (busy true)))
      = match policy (busy true) with
        | RejectIfRunning => 1
        | CancelAndRestart => 2
        end)
  /\ test_cancellable true = (2, true)
  /\ test_cancellable false = (1, false).
Proof.
  exact (start_while_running_follows_policy (busy true)
           {| ident := 0; state := Running; cancel_requested := false |}
           eq_refl eq_refl).
Defined.

End SingleInstanceProps.

(** * Properties of the waits *)

Module DialogsProps.

Import Indication IndicationProps Dialogs.
Open Scope string_scope.
Open Scope list_scope.
Open Scope N_scope.

Section Calls.

Variable R : Type.
Variable hide : bool.
Variable t0 : Time.






End Calls.





(** ** After the wait is over *)

Lemma run_app (R : Type) hide (l1 l2 : list (Action R)) : forall s,
  run hide (l1 ++ l2) s
  = match run hide l1 s with
    | Some s1 => run hide l2 s1
    | None => None
    end.
Proof.
  induction l1 as [|a l1 IH]; intros s; cbn [run app]; [reflexivity|].
  destruct (step hide a s); [apply IH|reflexivity].
Qed.

Lemma step_after_completion (R : Type) hide t0 a (s s' : State R) :
  Inv hide t0 s -> completed s = true -> step hide a s = Some s' ->
  completed s' = true /\ trace s' = trace s /\ caller s' = caller s
  /\ block_input s' = block_input s /\ min_show_task s' = min_show_task s.
Proof.
  intros HI Hdone.
  assert (Hn : caller s <> AwaitingOperation).
  { unfold completed in Hdone. intros E. now rewrite E in Hdone. }
  destruct (inv_settled HI Hn) as [_ Hns].
  unfold completed in *.
  destruct a as [d| | |r|r| |h|]; cbn [step].
  - intros [= <-]. auto.
  - destruct (show_task s); try discriminate. intros [= <-]. auto.
  - destruct (show_task s) as [|since| | |] eqn:E; try discriminate.
    now destruct (Hns since).
  - destruct (show_task s); try discriminate. intros [= <-]. auto.
  - destruct (caller s); discriminate.
  - destruct (caller s); discriminate.
  - destruct (caller s); discriminate.
  - destruct (caller s); discriminate.
Qed.

(** X9: once the wait is over nothing more happens on its behalf: in
    whatever way the event loop goes on, no callback is called, the
    outcome handed to the caller stays what it was and input stays
    unblocked.  In particular the cancelled [show_task] never shows the
    indicator late. *)
Theorem nothing_after_the_wait_is_over (R : Type) hide t0 before after
  (s s' : State R) :
  _wait_with_indication hide t0 before = Some s ->
  completed s = true ->
  _wait_with_indication hide t0 (before ++ after) = Some s' ->
  trace s' = trace s /\ caller s' = caller s /\ block_input s' = false.
Proof.
  intros Hrun Hdone. unfold _wait_with_indication in *.
  rewrite run_app, Hrun.
  pose proof (run_inv R hide t0 before _ _ (enter_inv R hide t0) Hrun) as HI.
  assert (Hb : block_input s = false).
  { pose proof (inv_caller HI) as Hca. unfold completed in Hdone.
    destruct (caller s); try discriminate; [apply Hca|exact Hca]. }
  clear Hrun. revert s HI Hdone Hb.
  induction after as [|a rest IH]; intros s HI Hdone Hb; cbn [run].
  - intros [= <-]. auto.
  - destruct (step hide a s) as [s1|] eqn:E; [|discriminate].
    destruct (step_after_completion R hide t0 a s s1 HI Hdone E)
      as (Hd1 & Ht1 & Hc1 & Hb1 & _).
    intros Hrest.
    destruct (IH s1 (step_inv R hide t0 a s s1 HI E) Hd1 ltac:(congruence) Hrest)
      as (Ht & Hc & Hbb).
    repeat split; congruence.
Qed.

Lemma nothing_after_the_wait_is_over_witness :
  trace fast_operation_end = trace fast_operation_end
  /\ caller fast_operation_end = caller fast_operation_end
  /\ block_input fast_operation_end = false.
Proof.
  exact (nothing_after_the_wait_is_over string true 0
           [RunShowTask; Tick 40; OperationDone (Raise (Exc "ValueError"))]
           [Tick 200]
           {| now := 40;
              block_input := false;
              min_show_task := None;
              show_task := ShowCancelled;
              caller := Finished (Raise (Exc "ValueError"));
              trace := [(40, OperationCompleted (Raise (Exc "ValueError")))] |}
           fast_operation_end eq_refl eq_refl eq_refl).
Defined.

(** ** What the wait hands on *)

Lemma step_keeps_outcome (R : Type) hide a (s s' : State R) r :
  step hide a s = Some s' ->
  match caller s with
  | AwaitingOperation => False
  | AwaitingMinShow r' | AwaitingHide r' | Finished r' => r' = r
  | Interrupted _ => True
  end ->
  match caller s' with
  | AwaitingOperation => False
  | AwaitingMinShow r' | AwaitingHide r' | Finished r' => r' = r
  | Interrupted _ => True
  end.
Proof.
  destruct a as [d| | |u|r0| |h|]; cbn [step].
  - intros [= <-]. auto.
  - destruct (show_task s); try discriminate. intros [= <-]. auto.
  - destruct (show_task s) as [|since| | |]; try discriminate.
    destruct (_ <=? _); try discriminate. intros [= <-]. auto.
  - destruct (show_task s); try discriminate. intros [= <-]. auto.
  - destruct (caller s); try discriminate. contradiction.
  - destruct (caller s) as [|r'| | |]; try discriminate.
    destruct (min_show_task s); try discriminate.
    destruct (_ <=? _); try discriminate. intros [= <-].
    unfold finally_hide. destruct hide; auto.
  - destruct (caller s) as [| |r'| |]; try discriminate. intros [= <-].
    destruct h; cbn; auto.
  - destruct (caller s) as [|r'| | |]; try discriminate. intros [= <-].
    cbn. auto.
Qed.

Lemma run_keeps_outcome (R : Type) hide schedule r : forall s s' : State R,
  run hide schedule s = Some s' ->
  match caller s with
  | AwaitingOperation => False
  | AwaitingMinShow r' | AwaitingHide r' | Finished r' => r' = r
  | Interrupted _ => True
  end ->
  match caller s' with
  | AwaitingOperation => False
  | AwaitingMinShow r' | AwaitingHide r' | Finished r' => r' = r
  | Interrupted _ => True
  end.
Proof.
  induction schedule as [|a rest IH]; intros s s'; cbn [run].
  - now intros [= <-].
  - destruct (step hide a s) as [s1|] eqn:E; [|discriminate].
    intros Hrun Hs. apply (IH s1 s' Hrun).
    now apply (step_keeps_outcome R hide a s s1 r).
Qed.

(** Once the operation is over, the only outcome the wait can hand to
    its caller is the operation's. *)
Lemma wait_hands_on (R : Type) hide t0 before after r (s : State R) :
  _wait_with_indication hide t0 (before ++ OperationDone r :: after) = Some s ->
  match caller s with
  | AwaitingOperation => False
  | AwaitingMinShow r' | AwaitingHide r' | Finished r' => r' = r
  | Interrupted _ => True
  end.
Proof.
  unfold _wait_with_indication. rewrite run_app.
  destruct (run hide before (enter t0)) as [s1|]; [|discriminate].
  cbn [run step].
  destruct (caller s1); try discriminate.
  intros Hrun. apply (run_keeps_outcome R hide after r _ s Hrun).
  unfold finally_enter. destruct (min_show_task s1); reflexivity.
Qed.

End DialogsProps.

(** * Properties of moving between screens *)

Module MovesProps.

Import Navigation NavigationProps DialogsProps Moves.
Open Scope string_scope.
Open Scope list_scope.
Open Scope Z_scope.

(** ** What a construction changes *)

Lemma construct_frame app i r app1 :
  in_range app i = true ->
  make_view_for_controller (cur (set_index i app)) (set_index i app) = (r, app1) ->
  construction app i = r
  /\ index (controllers app1) = i
  /\ instances (controllers app1) = instances (controllers app)
  /\ opts_screens app1 = opts_screens app
  /\ attempts (events app1) = S (attempts (events app))
  /\ exits (events app1) = exits (events app).
Proof.
  intros Hr H. unfold construction. rewrite H. cbn [fst].
  destruct (in_range_cur _ _ Hr) as [c Hc]. rewrite Hc in H.
  pose proof (make_view_frame _ _ _ _ H) as [Hf Ho].
  pose proof (make_view_events _ _ _ _ H) as [Ha He].
  rewrite Hf, Ho, Ha, He.
  cbn [set_index controllers index instances opts_screens events].
  repeat split.
Qed.

Lemma skips_spec app from increment k :
  skips app from increment k = true <->
  forall j, (1 <= j <= k)%nat ->
    in_range app (from + Z.of_nat j * increment) = true
    /\ construction app (from + Z.of_nat j * increment) = Raise Skip.
Proof.
  revert from. induction k as [|k IH]; intros from; cbn [skips].
  - split; [intros _ j Hj; lia | reflexivity].
  - rewrite !andb_true_iff, IH. split.
    + intros [[Hr Hs] Hrest] j Hj.
      destruct j as [|[|j]]; [lia| |].
      * replace (from + Z.of_nat 1 * increment) with (from + increment) by lia.
        split; [exact Hr|].
        destruct (construction app (from + increment)) as [v|[| |]];
          now try discriminate.
      * replace (from + Z.of_nat (S (S j)) * increment)
          with (from + increment + Z.of_nat (S j) * increment) by lia.
        apply Hrest. lia.
    + intros H. split; [split|].
      * destruct (H 1%nat ltac:(lia)) as [Hr _].
        now replace (from + Z.of_nat 1 * increment) with (from + increment)
          in Hr by lia.
      * destruct (H 1%nat ltac:(lia)) as [_ Hs].
        replace (from + Z.of_nat 1 * increment) with (from + increment)
          in Hs by lia.
        now rewrite Hs.
      * intros j Hj.
        replace (from + increment + Z.of_nat j * increment)
          with (from + Z.of_nat (S j) * increment) by lia.
        apply H. lia.
Qed.

(** ** Every way [_move_screen] can end *)

Lemma loop_inversion fuel : forall increment origin app res app',
  move_loop fuel increment origin app = Some (res, app') ->
  exists k, (k < fuel)%nat /\ move_outcome increment origin app k res app'.
Proof.
  induction fuel as [|fuel IH]; intros increment origin app res app' H;
    [discriminate|].
  destruct (in_range app (index (controllers app) + increment)) eqn:Hr.
  - rewrite (loop_construct _ _ _ _ Hr) in H. cbv zeta in H.
    destruct (make_view_for_controller _ _) as [r app1] eqn:E.
    destruct (construct_frame _ _ _ _ Hr E) as (Hx & Hi & Hinst & Ho & Ha & He).
    destruct r as [v|[|what|what]].
    + injection H as <- <-. exists 0%nat. split; [lia|].
      unfold move_outcome. cbn [skips].
      replace (index (controllers app) + Z.of_nat 1 * increment)
        with (index (controllers app) + increment) by lia.
      repeat split; try assumption. lia.
    + destruct (IH _ _ _ _ _ H) as (k & Hk & Hs & Hinst' & Ho' & Hres).
      exists (S k). split; [lia|]. unfold move_outcome.
      rewrite Hi in Hs, Hres.
      rewrite (skips_ext app1 app) in Hs by assumption.
      replace (index (controllers app) + increment + Z.of_nat (S k) * increment)
        with (index (controllers app) + Z.of_nat (S (S k)) * increment)
        in Hres by lia.
      assert (Hlen : len app1 = len app) by (unfold len; now rewrite Hinst).
      rewrite Hlen, (in_range_ext app1 app), (construction_ext app1 app),
        He, Ha in Hres by assumption.
      split; [|split; [congruence|split; [congruence|]]].
      * cbn [skips]. rewrite Hr, Hx, Hs. reflexivity.
      * destruct res as [[v|]|[|what|what]]; [| |exact Hres| |].
        -- destruct Hres as (H1 & H2 & H3 & H4 & H5).
           repeat split; try assumption. lia.
        -- destruct Hres as [(H1 & H2 & H3 & H4)|(H1 & H2 & H3 & H4)];
             [left|right]; repeat split; try assumption; lia.
        -- destruct Hres as (H1 & H2 & H3 & H4 & H5).
           repeat split; try assumption. lia.
        -- destruct Hres as (H1 & H2 & H3 & H4 & H5).
           repeat split; try assumption. lia.
    + injection H as <- <-. exists 0%nat. split; [lia|].
      unfold move_outcome. cbn [skips set_index controllers index instances
                                  opts_screens events].
      replace (index (controllers app) + Z.of_nat 1 * increment)
        with (index (controllers app) + increment) by lia.
      repeat split; try assumption. lia.
    + injection H as <- <-. exists 0%nat. split; [lia|].
      unfold move_outcome. cbn [skips].
      replace (index (controllers app) + Z.of_nat 1 * increment)
        with (index (controllers app) + increment) by lia.
      repeat split; try assumption. lia.
  - exists 0%nat. split; [lia|]. unfold move_outcome. cbn [skips].
    replace (index (controllers app) + Z.of_nat 1 * increment)
      with (index (controllers app) + increment) by lia.
    unfold in_range in Hr. apply andb_false_iff in Hr as [Hr|Hr].
    + apply Z.leb_gt in Hr. rewrite loop_below_zero in H by lia.
      injection H as <- <-.
      cbn [set_index controllers index instances opts_screens events].
      repeat split. left. repeat split; lia.
    + apply Z.ltb_ge in Hr. rewrite loop_past_end in H by lia.
      injection H as <- <-. unfold exit.
      cbn [emit set_index controllers index instances opts_screens events].
      rewrite exits_app, attempts_app.
      change (exits [AppExit]) with 1%nat. change (attempts [AppExit]) with 0%nat.
      repeat split. right. repeat split; lia.
Qed.

Lemma move_screen_inversion fuel increment coro app res app' :
  went_through coro = true ->
  _move_screen fuel increment coro app = Some (res, app') ->
  exists k, (k < fuel)%nat
            /\ move_outcome increment (index (controllers app)) app k res app'.
Proof.
  intros Hc H.
  assert (Hloop : move_loop fuel increment
                    (index (controllers (leave_current app)))
                    (leave_current app) = Some (res, app')).
  { destruct coro as [[u|e]|]; try discriminate; exact H. }
  destruct (leave_current_frame app) as (Hf & Ho & _ & Ha & He).
  destruct (loop_inversion _ _ _ _ _ _ Hloop) as (k & Hk & Hs & Hi' & Ho' & Hres).
  exists k. split; [exact Hk|]. unfold move_outcome.
  assert (Hinst : instances (controllers (leave_current app))
                  = instances (controllers app)) by now rewrite Hf.
  assert (Hlen : len (leave_current app) = len app)
    by (unfold len; now rewrite Hinst).
  rewrite (skips_ext (leave_current app) app) in Hs by assumption.
  rewrite Hlen, (in_range_ext (leave_current app) app),
    (construction_ext (leave_current app) app), He, Ha in Hres by assumption.
  rewrite Hf in *.
  repeat split; try congruence; assumption.
Qed.

Lemma move_screen_current fuel increment coro app res app' :
  went_through coro = true ->
  _move_screen fuel increment coro app = Some (res, app') ->
  cur_screen app' = match res with Return (Some _) => cur app' | _ => None end
  /\ (forall v, res = Return (Some v) -> cur app' <> None).
Proof.
  intros Hc H.
  assert (Hloop : move_loop fuel increment
                    (index (controllers (leave_current app)))
                    (leave_current app) = Some (res, app')).
  { destruct coro as [[u|e]|]; try discriminate; exact H. }
  destruct (leave_current_frame app) as (_ & _ & Hn & _).
  destruct (loop_cur_screen _ _ _ _ _ _ Hn Hloop) as (Hs & Hv & _).
  split; assumption.
Qed.

(** ** The moves return *)

(** X1: with more fuel than there are stages, [next_screen] and
    [prev_screen] always come back once the event loop has brought the
    wait to its end: the [while True] loop of [_move_screen] leaves
    after at most one turn per stage plus one. *)
Theorem next_and_prev_screen_return fuel coro before after tui :
  (List.length (instances (controllers (nav tui))) < fuel)%nat ->
  wait_ends before after ->
  (exists r, next_screen fuel coro before after tui = Some r)
  /\ (exists r, prev_screen fuel before after tui = Some r).
Proof.
  intros Hfuel Hends. unfold next_screen, prev_screen, move_screen. split.
  - destruct (move_screen_returns fuel 1 coro (nav tui)) as [[r app'] ->];
      [lia|assumption|].
    destruct (Hends r) as (s & -> & Hdone). unfold Indication.completed in Hdone.
    destruct (Indication.caller s) as [|r'|r'|[[v|]|e]|e];
      try discriminate; eauto.
  - destruct (move_screen_returns fuel (-1) None (nav tui)) as [[r app'] ->];
      [lia|assumption|].
    destruct (Hends r) as (s & -> & Hdone). unfold Indication.completed in Hdone.
    destruct (Indication.caller s) as [|r'|r'|[[v|]|e]|e];
      try discriminate; eauto.
Qed.

Lemma next_and_prev_screen_return_witness :
  (exists r, next_screen 4 None [] [] on_locale = Some r)
  /\ (exists r, prev_screen 4 [] [] on_locale = Some r).
Proof.
  apply (next_and_prev_screen_return 4 None [] [] on_locale).
  - cbn. lia.
  - intros r. eexists. split; reflexivity.
Defined.

(** ** Where the cursor can be *)

(** X2: a move by one stage, forward or backward, from a cursor between
    -1 and the last stage leaves the cursor between -1 and the number of
    stages; it is on a stage whenever a view is returned, and it equals
    the number of stages only after a forward move that returned [None]
    and called [exit]. *)
Theorem move_keeps_cursor_in_bounds fuel increment coro app res app' :
  went_through coro = true ->
  increment = 1 \/ increment = -1 ->
  -1 <= index (controllers app) < len app ->
  _move_screen fuel increment coro app = Some (res, app') ->
  -1 <= index (controllers app') <= len app'
  /\ (forall v, res = Return (Some v) ->
        in_range app' (index (controllers app')) = true)
  /\ (index (controllers app') = len app' ->
        increment = 1 /\ res = Return None
        /\ exits (events app') = S (exits (events app))).
Proof.
  intros Hc Hinc Hidx H.
  destruct (move_screen_inversion _ _ _ _ _ _ Hc H)
    as (k & _ & Hs & Hinst & Ho & Hres).
  assert (Hlen : len app' = len app) by (unfold len; now rewrite Hinst).
  rewrite (in_range_ext app' app) by assumption. rewrite Hlen.
  assert (Hlast : (1 <= k)%nat ->
            0 <= index (controllers app) + Z.of_nat k * increment < len app).
  { intros Hk. destruct (proj1 (skips_spec _ _ _ _) Hs k ltac:(lia)) as [Hr _].
    unfold in_range in Hr. apply andb_true_iff in Hr as [H0 H1].
    apply Z.leb_le in H0. apply Z.ltb_lt in H1. lia. }
  assert (Hk0 : k = 0%nat \/ (1 <= k)%nat) by lia.
  destruct res as [[v|]|[|what|what]].
  - destruct Hres as (Hr & _ & Hi & _). rewrite Hi.
    pose proof Hr as Hr'. unfold in_range in Hr'.
    apply andb_true_iff in Hr' as [H0 H1].
    apply Z.leb_le in H0. apply Z.ltb_lt in H1.
    split; [lia|]. split; [intros; assumption|]. intros Heq. exfalso. lia.
  - destruct Hres as [(Ht & Hi & He & _)|(Ht & Hi & He & _)]; rewrite Hi.
    + split; [lia|]. split; [discriminate|]. intros Heq. exfalso. lia.
    + assert (Hfw : increment = 1
                    /\ index (controllers app) + Z.of_nat (S k) * increment
                       = len app).
      { destruct Hk0 as [-> | Hk]; [lia|]. specialize (Hlast Hk). lia. }
      split; [lia|]. split; [discriminate|]. intros _.
      split; [apply Hfw|]. split; [reflexivity|exact He].
  - destruct Hres.
  - destruct Hres as (_ & _ & Hi & _). rewrite Hi.
    split; [lia|]. split; [discriminate|]. intros Heq. exfalso. lia.
  - destruct Hres as (Hr & _ & Hi & _). rewrite Hi.
    unfold in_range in Hr. apply andb_true_iff in Hr as [H0 H1].
    apply Z.leb_le in H0. apply Z.ltb_lt in H1.
    split; [lia|]. split; [discriminate|]. intros Heq. exfalso. lia.
Qed.

Lemma move_keeps_cursor_in_bounds_witness :
  -1 <= index (controllers (nav on_identity)) <= len (nav on_identity)
  /\ (forall v, Return (Some (ViewFactory "identity")) = Return (Some v) ->
        in_range (nav on_identity) (index (controllers (nav on_identity)))
        = true)
  /\ (index (controllers (nav on_identity)) = len (nav on_identity) ->
        1 = 1 /\ Return (Some (ViewFactory "identity")) = Return None
        /\ exits (events (nav on_identity))
           = S (exits (events (nav on_locale)))).
Proof.
  apply (move_keeps_cursor_in_bounds 2 1 None (nav on_locale)
           (Return (Some (ViewFactory "identity"))) (nav on_identity));
    first [reflexivity | now left | cbn; lia].
Defined.

(** ** When the application is told to finish *)

(** X3: a move from a cursor before the end calls [exit] at most once,
    and only when it goes forward, returns [None] and leaves the cursor
    at or past the number of stages: a backward move never finishes the
    application.  A forward move from a cursor of -1 or more that
    returns [None] has always called [exit]; it is never the "no move"
    answer. *)
Theorem exit_only_past_the_end fuel increment coro app res app' :
  went_through coro = true ->
  index (controllers app) < len app ->
  _move_screen fuel increment coro app = Some (res, app') ->
  (exits (events app') <= S (exits (events app)))%nat
  /\ (exits (events app') = S (exits (events app)) ->
        0 < increment /\ res = Return None
        /\ len app' <= index (controllers app'))
  /\ (0 < increment -> -1 <= index (controllers app) -> res = Return None ->
        exits (events app') = S (exits (events app))).
Proof.
  intros Hc Hidx H.
  destruct (move_screen_inversion _ _ _ _ _ _ Hc H)
    as (k & _ & Hs & Hinst & Ho & Hres).
  assert (Hlen : len app' = len app) by (unfold len; now rewrite Hinst).
  rewrite Hlen.
  destruct res as [[v|]|[|what|what]].
  - destruct Hres as (_ & _ & _ & He & _). rewrite He.
    split; [lia|]. split; [intros; lia|discriminate].
  - destruct Hres as [(Ht & Hi & He & _)|(Ht & Hi & He & _)]; rewrite He.
    + split; [lia|]. split; [intros; lia|]. intros Hp Hlow _. exfalso. nia.
    + split; [lia|]. split; [|reflexivity]. intros _.
      split; [nia|]. split; [reflexivity|lia].
  - destruct Hres.
  - destruct Hres as (_ & _ & _ & He & _). rewrite He.
    split; [lia|]. split; [intros; lia|discriminate].
  - destruct Hres as (_ & _ & _ & He & _). rewrite He.
    split; [lia|]. split; [intros; lia|discriminate].
Qed.

Lemma exit_only_past_the_end_witness :
  (exits (events (nav on_identity)) <= S (exits (events (nav on_locale))))%nat
  /\ (exits (events (nav on_identity)) = S (exits (events (nav on_locale))) ->
        0 < 1 /\ Return (Some (ViewFactory "identity")) = Return None
        /\ len (nav on_identity) <= index (controllers (nav on_identity)))
  /\ (0 < 1 -> -1 <= index (controllers (nav on_locale)) ->
        Return (Some (ViewFactory "identity")) = Return None ->
        exits (events (nav on_identity)) = S (exits (events (nav on_locale)))).
Proof.
  apply (exit_only_past_the_end 2 1 None (nav on_locale)
           (Return (Some (ViewFactory "identity"))) (nav on_identity));
    first [reflexivity | cbn; lia].
Defined.

(** ** How much a move does *)

(** X4: with a non-zero increment a move calls
    [make_view_for_controller] at most once per stage: the number of
    constructions it attempts is at most the number of stages. *)
Theorem move_attempts_each_stage_once fuel increment coro app res app' :
  went_through coro = true ->
  increment <> 0 ->
  _move_screen fuel increment coro app = Some (res, app') ->
  Z.of_nat (attempts (events app'))
  <= Z.of_nat (attempts (events app)) + len app.
Proof.
  intros Hc Hnz H.
  destruct (move_screen_inversion _ _ _ _ _ _ Hc H)
    as (k & _ & Hs & Hinst & Ho & Hres).
  assert (Hpos : forall j, (1 <= j <= k)%nat ->
            0 <= index (controllers app) + Z.of_nat j * increment < len app).
  { intros j Hj. destruct (proj1 (skips_spec _ _ _ _) Hs j Hj) as [Hr _].
    unfold in_range in Hr. apply andb_true_iff in Hr as [H0 H1].
    apply Z.leb_le in H0. apply Z.ltb_lt in H1. lia. }
  assert (Hk : Z.of_nat k <= len app).
  { destruct k as [|k]; [unfold len; lia|].
    pose proof (Hpos 1%nat ltac:(lia)) as H1.
    pose proof (Hpos (S k) ltac:(lia)) as H2. nia. }
  assert (Hsk : in_range app (index (controllers app)
                              + Z.of_nat (S k) * increment) = true ->
                Z.of_nat (S k) <= len app).
  { intros Hr. unfold in_range in Hr. apply andb_true_iff in Hr as [H0 H1].
    apply Z.leb_le in H0. apply Z.ltb_lt in H1.
    destruct k as [|k]; [lia|].
    pose proof (Hpos 1%nat ltac:(lia)) as H2. nia. }
  destruct res as [[v|]|[|what|what]].
  - destruct Hres as (Hr & _ & _ & _ & Ha). rewrite Ha. specialize (Hsk Hr). lia.
  - destruct Hres as [(_ & _ & _ & Ha)|(_ & _ & _ & Ha)]; rewrite Ha; lia.
  - destruct Hres.
  - destruct Hres as (Hr & _ & _ & _ & Ha). rewrite Ha. specialize (Hsk Hr). lia.
  - destruct Hres as (Hr & _ & _ & _ & Ha). rewrite Ha. specialize (Hsk Hr). lia.
Qed.

Lemma move_attempts_each_stage_once_witness :
  Z.of_nat (attempts (events (nav on_identity)))
  <= Z.of_nat (attempts (events (nav on_locale))) + len (nav on_locale).
Proof.
  apply (move_attempts_each_stage_once 2 1 None (nav on_locale)
           (Return (Some (ViewFactory "identity"))) (nav on_identity));
    first [reflexivity | lia].
Defined.

(** ** The frame's body *)

(** X5: [move_screen] sets the body of the frame only when it returns
    normally with a stage as the current screen, and then to the view
    that stage built (called first when it is a callable), whatever
    [show_progress] had put there.  In every other case it does not
    touch the body, which is what it was before the call, or what
    [show_progress] made of it: when the move ends with no current
    screen, when [_move_screen] raises, and also when the wait raises
    after [_move_screen] returned a view (a cancellation arriving while
    the indicator is kept up), where a stage is the current screen and
    the body is not its view. *)
Theorem move_screen_sets_body_on_return fuel increment coro before after
  tui r tui' :
  move_screen fuel increment coro before after tui = Some (r, tui') ->
  show_progress tui' = show_progress tui
  /\ (exists res,
        _move_screen fuel increment coro (nav tui) = Some (res, nav tui'))
  /\ match r, cur_screen (nav tui') with
     | Return _, Some stage =>
       cur (nav tui') = Some stage
       /\ exists v,
            construction (nav tui) (index (controllers (nav tui'))) = Return v
            /\ ui_body tui' = Some (call_view v)
     | _, _ =>
       ui_body tui' = ui_body tui
       \/ ui_body tui' = show_progress tui (ui_body tui)
     end.
Proof.
  intros H. unfold move_screen in H.
  destruct (_move_screen fuel increment coro (nav tui)) as [[res app']|] eqn:E;
    [|discriminate].
  destruct (Dialogs.wait_with_progress _ _) as [s|] eqn:W; [|discriminate].
  pose proof (wait_hands_on _ _ _ _ _ _ _ W) as Hp.
  assert (Hbody : body_after_wait s tui = ui_body tui
                  \/ body_after_wait s tui = show_progress tui (ui_body tui)).
  { unfold body_after_wait. destruct (Indication.min_show_task s); auto. }
  assert (Hcur : forall x, res = Return x ->
            cur_screen app'
            = match x with Some _ => cur app' | None => None end
            /\ (forall v, x = Some v ->
                  cur app' <> None
                  /\ construction (nav tui) (index (controllers app'))
                     = Return v)).
  { intros x ->.
    assert (Hc : went_through coro = true).
    { destruct coro as [[u|e]|]; try reflexivity. discriminate. }
    destruct (move_screen_current _ _ _ _ _ _ Hc E) as [H1 H2].
    destruct (move_screen_inversion _ _ _ _ _ _ Hc E)
      as (k & _ & _ & _ & _ & Hres).
    split; [exact H1|]. intros v ->. split; [now apply (H2 v)|].
    destruct Hres as (_ & Hx & Hi & _). now rewrite Hi. }
  destruct (Indication.caller s) as [|r'|r'|r'|e]; try discriminate.
  - subst r'. destruct res as [[v|]|e]; injection H as <- <-;
      cbn [nav ui_body show_progress];
      (split; [reflexivity|]); (split; [eexists; reflexivity|]).
    + destruct (Hcur _ eq_refl) as [H1 H2].
      destruct (H2 v eq_refl) as [Hsome Hx]. rewrite H1.
      destruct (cur app') as [stage|]; [|contradiction].
      split; [reflexivity|]. now exists v.
    + destruct (Hcur _ eq_refl) as [H1 _]. rewrite H1. exact Hbody.
    + exact Hbody.
  - injection H as <- <-. cbn [nav ui_body show_progress].
    split; [reflexivity|]. split; [eexists; reflexivity|]. exact Hbody.
Qed.

Lemma move_screen_sets_body_on_return_witness :
  cur_screen (nav cancelled_on_identity) = Some identity
  /\ ui_body cancelled_on_identity = Some (BaseView "progress")
  /\ show_progress cancelled_on_identity = show_progress on_locale
  /\ (exists res,
        _move_screen 2 1 None (nav on_locale)
        = Some (res, nav cancelled_on_identity))
  /\ (ui_body cancelled_on_identity = ui_body on_locale
      \/ ui_body cancelled_on_identity
         = show_progress on_locale (ui_body on_locale)).
Proof.
  split; [reflexivity|]. split; [reflexivity|].
  exact (move_screen_sets_body_on_return 2 1 None
           [Indication.RunShowTask; Indication.Tick 100%N;
            Indication.WakeShowTask; Indication.Tick 50%N]
           [Indication.Tick 300%N; Indication.CancelCaller]
           on_locale (Raise (BaseExc "CancelledError"))
           cancelled_on_identity eq_refl).
Defined.

End MovesProps.

(** * Properties of the server controllers *)

Module ServerControllerProps.

Import ServerController.
Open Scope string_scope.
Open Scope list_scope.

Lemma listed_In key l :
  listed key l = true <-> exists k, key = Some k /\ In k l.
Proof.
  destruct key as [k|]; cbn [listed].
  - rewrite existsb_exists. split.
    + intros (x & Hin & Heq). apply String.eqb_eq in Heq. subst x. eauto.
    + intros (k' & [= <-] & Hin). exists k. split; [assumption|].
      apply String.eqb_refl.
  - split; [discriminate|]. intros (k & H & _). discriminate.
Qed.

Lemma interactive_needs_active c srv :
  interactive c srv = true -> _active c = true.
Proof.
  unfold interactive.
  destruct (negb _); [easy|].
  repeat match goal with
         | |- context [if ?b then _ else _] => destruct b
         end; easy.
Qed.

(** X10: a controller is interactive exactly when it is active and,
    if an autoinstall configuration is present (not [None], not empty),
    its "interactive-sections" list names "*", the controller's
    autoinstall key or its key alias.  So a controller that was made
    inactive is never interactive, and during an autoinstall a
    controller is non-interactive unless listed. *)
Theorem interactive_iff_active_and_listed c srv :
  interactive c srv = true <->
  _active c = true
  /\ (truthy (autoinstall_config srv) = false
      \/ exists config l,
           autoinstall_config srv = Some config
           /\ interactive_sections config = Some l
           /\ (In "*" l
               \/ (exists k, autoinstall_key c = Some k /\ In k l)
               \/ (exists a, autoinstall_key_alias c = Some a /\ In a l))).
Proof.
  unfold interactive.
  destruct (truthy (autoinstall_config srv)) eqn:Et; cbn [negb].
  - destruct (autoinstall_config srv) as [config|]; [|discriminate].
    destruct (interactive_sections config) as [l|] eqn:El.
    + destruct (listed (Some "*") l) eqn:E1.
      { apply listed_In in E1 as (k & [= <-] & Hin).
        split; [intros H; split; [exact H|right; eauto 8]|now intros [H _]]. }
      destruct (listed (autoinstall_key c) l) eqn:E2.
      { apply listed_In in E2.
        split; [intros H; split; [exact H|right; eauto 8]|now intros [H _]]. }
      assert (Ealias : match autoinstall_key_alias c with
                       | Some _ => listed (autoinstall_key_alias c) l
                       | None => false
                       end = listed (autoinstall_key_alias c) l)
        by (destruct (autoinstall_key_alias c); reflexivity).
      rewrite Ealias.
      destruct (listed (autoinstall_key_alias c) l) eqn:E3.
      { apply listed_In in E3.
        split; [intros H; split; [exact H|right; eauto 8]|now intros [H _]]. }
      split; [discriminate|].
      intros [_ [H|(config' & l' & [= <-] & Hl & H)]]; [discriminate|].
      rewrite El in Hl. injection Hl as <-.
      exfalso. destruct H as [H|[H|H]].
      * assert (listed (Some "*") l = true) by (apply listed_In; eauto).
        congruence.
      * apply listed_In in H. congruence.
      * apply listed_In in H. congruence.
    + cbn. destruct (listed (autoinstall_key c) []) eqn:E2.
      { apply listed_In in E2 as (k & _ & []). }
      assert (E3 : match autoinstall_key_alias c with
                   | Some _ => listed (autoinstall_key_alias c) []
                   | None => false
                   end = false).
      { destruct (autoinstall_key_alias c); reflexivity. }
      rewrite E3. split; [discriminate|].
      intros [_ [H|(config' & l' & [= <-] & H & _)]]; congruence.
  - split; [intros H; split; [exact H|now left]|now intros [H _]].
Qed.

(** X11: for a controller with a list of variants it is interactive
    for, [_confirmed] with the install's variant outside that list marks
    it configured (its state file then holds what [serialize()]
    answered) and makes it inactive, after which it is interactive under
    no configuration; with the variant in the list nothing changes. *)
Theorem confirmed_disables_other_variants c srv variants :
  interactive_for_variants c = Some variants ->
  (~ In (variant srv) variants ->
   exists c' srv',
     _confirmed c srv = (Ok tt, (c', srv'))
     /\ (forall any, interactive c' any = false)
     /\ lookup (name c) (state_files srv') = Some (serialize c)
     /\ autoinstall_config srv' = autoinstall_config srv)
  /\ (In (variant srv) variants -> _confirmed c srv = (Ok tt, (c, srv))).
Proof.
  intros Hv. unfold _confirmed. rewrite Hv.
  destruct (existsb (String.eqb (variant srv)) variants) eqn:E; cbn [negb].
  - apply existsb_exists in E as (x & Hin & Heq).
    apply String.eqb_eq in Heq. subst x.
    split; [intros Hn; now destruct Hn|reflexivity].
  - split.
    + intros _. eexists. eexists. split; [reflexivity|]. split; [|split].
      * intros any.
        destruct (interactive (set_active false c) any) eqn:Ei; [|reflexivity].
        apply interactive_needs_active in Ei. discriminate.
      * unfold configured. destruct (model_name c); cbn; now rewrite String.eqb_refl.
      * unfold configured. destruct (model_name c); reflexivity.
    + intros Hin. exfalso.
      assert (Ht : existsb (String.eqb (variant srv)) variants = true).
      { apply existsb_exists. exists (variant srv). split; [assumption|].
        apply String.eqb_refl. }
      congruence.
Qed.

Lemma confirmed_disables_other_variants_witness :
  (~ In (variant server_install) ["desktop"] ->
   exists c' srv',
     _confirmed timezone server_install = (Ok tt, (c', srv'))
     /\ (forall any, interactive c' any = false)
     /\ lookup (name timezone) (state_files srv') = Some (serialize timezone)
     /\ autoinstall_config srv' = autoinstall_config server_install)
  /\ (In (variant server_install) ["desktop"] ->
      _confirmed timezone server_install = (Ok tt, (timezone, server_install))).
Proof.
  exact (confirmed_disables_other_variants timezone server_install ["desktop"]
           eq_refl).
Defined.

(** ** Loading autoinstall data *)

(** X12: with an autoinstall configuration present, [setup_autoinstall]
    loads the data under the controller's autoinstall key when the
    configuration has that key, whatever is under the alias; the data
    under the alias when only the alias is there; and the controller's
    default when neither is: in each case provided the data is [None],
    the controller has no schema, or the data passes the schema. *)
Theorem setup_autoinstall_key_before_alias c srv config :
  autoinstall_config srv = Some config ->
  truthy (Some config) = true ->
  (forall v, getitem config (autoinstall_key c) = Some v ->
     accepted c v = true -> loads c srv v)
  /\ (forall a v, getitem config (autoinstall_key c) = None ->
        autoinstall_key_alias c = Some a ->
        getitem config (Some a) = Some v ->
        accepted c v = true -> loads c srv v)
  /\ (getitem config (autoinstall_key c) = None ->
      (forall a, autoinstall_key_alias c = Some a ->
         getitem config (Some a) = None) ->
      accepted c (autoinstall_default c) = true ->
      loads c srv (autoinstall_default c)).
Proof.
  intros Hcfg Ht.
  assert (Hload : forall v, ai_data_of c config = v -> accepted c v = true ->
                    loads c srv v).
  { intros v Hv Hacc. unfold loads, setup_autoinstall.
    rewrite Hcfg, Ht. cbn [negb]. cbv zeta.
    unfold ai_data_of in Hv. rewrite Hv.
    unfold accepted in Hacc. unfold validate_autoinstall.
    destruct v as [|l|text]; [reflexivity| |];
      (destruct (autoinstall_schema c) as [validates|]; [|reflexivity]);
      now rewrite Hacc. }
  split; [|split].
  - intros v Hk. apply Hload. unfold ai_data_of. cbn [first_found].
    now rewrite Hk.
  - intros a v Hk Ha Hav. apply Hload. unfold ai_data_of.
    rewrite Ha. cbn [first_found]. now rewrite Hk, Hav.
  - intros Hk Ha. apply Hload. unfold ai_data_of.
    destruct (autoinstall_key_alias c) as [a|]; cbn [first_found]; rewrite Hk.
    + now rewrite (Ha a eq_refl).
    + reflexivity.
Qed.

Lemma setup_autoinstall_key_before_alias_witness :
  (forall v, getitem both_keys (autoinstall_key source) = Some v ->
     accepted source v = true -> loads source both_keys_install v)
  /\ (forall a v, getitem both_keys (autoinstall_key source) = None ->
        autoinstall_key_alias source = Some a ->
        getitem both_keys (Some a) = Some v ->
        accepted source v = true -> loads source both_keys_install v)
  /\ (getitem both_keys (autoinstall_key source) = None ->
      (forall a, autoinstall_key_alias source = Some a ->
         getitem both_keys (Some a) = None) ->
      accepted source (autoinstall_default source) = true ->
      loads source both_keys_install (autoinstall_default source)).
Proof.
  exact (setup_autoinstall_key_before_alias source both_keys_install both_keys
           eq_refl eq_refl).
Defined.

Lemma setup_autoinstall_cases c srv :
  setup_autoinstall c srv = (Ok tt, srv)
  \/ (exists v,
        accepted c v = true
        /\ setup_autoinstall c srv
           = (Ok tt,
              record (ChildExit "load_autoinstall_data" false)
                (record (LoadAutoinstallData v)
                   (record (ChildEnter "load_autoinstall_data") srv))))
  \/ setup_autoinstall c srv
     = (Error (AutoinstallValidationError (autoinstall_key c)),
        record (ChildExit "load_autoinstall_data" true)
          (record (ChildEnter "load_autoinstall_data") srv)).
Proof.
  unfold setup_autoinstall.
  destruct (autoinstall_config srv) as [config|]; [|now left].
  destruct (truthy (Some config)); cbn [negb]; [|now left].
  cbv zeta. fold (ai_data_of c config).
  unfold validate_autoinstall, accepted.
  destruct (ai_data_of c config) as [|l|text] eqn:Ev.
  - right. left. exists VNull. split; reflexivity.
  - destruct (autoinstall_schema c) as [validates|] eqn:Es.
    + destruct (validates (VSections l)) eqn:Eval.
      * right. left. exists (VSections l). now split.
      * right. right. reflexivity.
    + right. left. exists (VSections l). now split.
  - destruct (autoinstall_schema c) as [validates|] eqn:Es.
    + destruct (validates (VData text)) eqn:Eval.
      * right. left. exists (VData text). now split.
      * right. right. reflexivity.
    + right. left. exists (VData text). now split.
Qed.

(** X13: [setup_autoinstall] never hands to [load_autoinstall_data]
    data that fails the controller's schema: whatever it loads is
    [None], unchecked for want of a schema, or valid.  When it fails, the
    error is an AutoinstallValidationError naming the controller's
    autoinstall key (also when the data came from under the alias),
    nothing was loaded and the context child was left as failed.  It
    touches neither the configuration nor the state files. *)
Theorem setup_autoinstall_loads_only_valid_data c srv r srv' :
  setup_autoinstall c srv = (r, srv') ->
  (forall d, In (LoadAutoinstallData d) (calls srv') ->
     In (LoadAutoinstallData d) (calls srv)
     \/ (accepted c d = true /\ r = Ok tt))
  /\ (forall e, r = Error e ->
        e = AutoinstallValidationError (autoinstall_key c)
        /\ calls srv'
           = calls srv ++ [ChildEnter "load_autoinstall_data";
                           ChildExit "load_autoinstall_data" true])
  /\ autoinstall_config srv' = autoinstall_config srv
  /\ state_files srv' = state_files srv.
Proof.
  intros H.
  destruct (setup_autoinstall_cases c srv) as [E|[(v & Hacc & E)|E]];
    rewrite E in H; injection H as <- <-;
    cbn [record set_calls calls autoinstall_config state_files].
  - repeat split; auto; discriminate.
  - repeat split; try discriminate.
    intros d Hin. rewrite !in_app_iff in Hin. cbn in Hin.
    repeat match goal with
           | Hor : _ \/ _ |- _ => destruct Hor
           end; try contradiction; try discriminate; auto.
    match goal with
    | Heq : LoadAutoinstallData _ = LoadAutoinstallData _ |- _ =>
      injection Heq as <-
    end.
    right. now split.
  - rewrite <- app_assoc. repeat split.
    + intros d Hin. rewrite !in_app_iff in Hin. cbn in Hin.
      repeat match goal with
             | Hor : _ \/ _ |- _ => destruct Hor
             end; try contradiction; try discriminate; auto.
    + now injection H as <-.
Qed.

Lemma setup_autoinstall_loads_only_valid_data_witness :
  (forall d,
     In (LoadAutoinstallData d)
       [ChildEnter "load_autoinstall_data";
        ChildExit "load_autoinstall_data" true] ->
     In (LoadAutoinstallData d) (calls server_install)
     \/ (accepted source d = true
         /\ @Error unit (AutoinstallValidationError (Some "source")) = Ok tt))
  /\ (forall e, @Error unit (AutoinstallValidationError (Some "source")) = Error e ->
        e = AutoinstallValidationError (autoinstall_key source)
        /\ [ChildEnter "load_autoinstall_data";
            ChildExit "load_autoinstall_data" true]
           = calls server_install
             ++ [ChildEnter "load_autoinstall_data";
                 ChildExit "load_autoinstall_data" true])
  /\ autoinstall_config server_install = autoinstall_config server_install
  /\ state_files server_install = state_files server_install.
Proof.
  exact (setup_autoinstall_loads_only_valid_data source server_install
           (Error (AutoinstallValidationError (Some "source")))
           {| autoinstall_config := autoinstall_config server_install;
              variant := "server";
              state_files := [];
              calls := [ChildEnter "load_autoinstall_data";
                        ChildExit "load_autoinstall_data" true] |}
           eq_refl).
Defined.

End ServerControllerProps.

(** * Properties of the terminal *)

Module TerminalProps.

Import Terminal.
Open Scope string_scope.
Open Scope list_scope.

(** ** What the operations leave alone *)

Lemma set_rich_frame rich t :
  dry_run (snd (set_rich rich t)) = dry_run t
  /\ run_on_serial (snd (set_rich rich t)) = run_on_serial t
  /\ fg_proc (snd (set_rich rich t)) = fg_proc t
  /\ has_loop (snd (set_rich rich t)) = has_loop t
  /\ screen_started (snd (set_rich rich t)) = screen_started t.
Proof.
  unfold set_rich. destruct (same_mode rich (rich_mode t)); [cbn; auto|].
  cbv zeta. cbn [emit set_rich_mode write_file has_loop].
  destruct (negb (has_loop t)); cbn; auto.
Qed.

Lemma same_mode_true rich m : same_mode rich m = true <-> m = Some rich.
Proof.
  destruct m as [b|]; cbn; [|split; discriminate].
  rewrite Bool.eqb_true_iff. split; [now intros ->|now intros [= ->]].
Qed.

Lemma set_rich_mode_after rich t :
  rich_mode (snd (set_rich rich t)) = Some rich.
Proof.
  unfold set_rich. destruct (same_mode rich (rich_mode t)) eqn:E.
  - now apply same_mode_true in E.
  - cbv zeta. cbn [emit set_rich_mode write_file has_loop].
    destruct (negb (has_loop t)); reflexivity.
Qed.

(** What [set_rich] does to the state files: nothing when the mode
    stays, else one write of the new mode to the console's file. *)
Lemma set_rich_files rich t :
  state_dir (snd (set_rich rich t))
  = if same_mode rich (rich_mode t) then state_dir t
    else (rich_mode_file t, JBool rich) :: state_dir t.
Proof.
  unfold set_rich. destruct (same_mode rich (rich_mode t)); [reflexivity|].
  cbv zeta. cbn [emit set_rich_mode write_file has_loop].
  destruct (negb (has_loop t)); reflexivity.
Qed.

(** X15: [set_rich] settles the mode: afterwards [rich_mode] is the
    mode asked for, and asking for it again changes nothing at all (no
    file written, no palette registered, no screen cleared). *)
Theorem set_rich_twice_is_once rich t :
  rich_mode (snd (set_rich rich t)) = Some rich
  /\ set_rich rich (snd (set_rich rich t))
     = (Return tt, snd (set_rich rich t)).
Proof.
  split; [apply set_rich_mode_after|].
  assert (E : same_mode rich (rich_mode (snd (set_rich rich t))) = true)
    by (apply same_mode_true, set_rich_mode_after).
  unfold set_rich at 1. now rewrite E.
Qed.

(** ** The state file follows the mode *)

(** One operation keeps the options; it leaves mode and state files as
    they are, or sets a mode and writes it to the console's file. *)
Lemma op_on_mode op t :
  run_on_serial (apply_op t op) = run_on_serial t
  /\ dry_run (apply_op t op) = dry_run t
  /\ ((rich_mode (apply_op t op) = rich_mode t
       /\ state_dir (apply_op t op) = state_dir t)
      \/ exists b,
           rich_mode (apply_op t op) = Some b
           /\ state_dir (apply_op t op)
              = (rich_mode_file t, JBool b) :: state_dir t).
Proof.
  assert (Hset : forall rich t,
    run_on_serial (snd (set_rich rich t)) = run_on_serial t
    /\ dry_run (snd (set_rich rich t)) = dry_run t
    /\ ((rich_mode (snd (set_rich rich t)) = rich_mode t
         /\ state_dir (snd (set_rich rich t)) = state_dir t)
        \/ exists b,
             rich_mode (snd (set_rich rich t)) = Some b
             /\ state_dir (snd (set_rich rich t))
                = (rich_mode_file t, JBool b) :: state_dir t)).
  { intros rich t1.
    destruct (set_rich_frame rich t1) as (Hd & Hs & _).
    split; [exact Hs|]. split; [exact Hd|].
    rewrite set_rich_files, set_rich_mode_after.
    destruct (same_mode rich (rich_mode t1)) eqn:E.
    - apply same_mode_true in E. left. now rewrite E.
    - right. now exists rich. }
  destruct op as [rich| |key| |cmd bh ah]; cbn [apply_op].
  - apply Hset.
  - apply Hset.
  - unfold unhandled_input.
    destruct (dry_run t && String.eqb key "ctrl x"); [cbn; auto|].
    destruct (String.eqb key "f3").
    { destruct (negb (has_loop t)); cbn; auto. }
    destruct (run_on_serial t && _); [apply Hset|cbn; auto].
  - unfold redraw_screen.
    destruct (negb (has_loop t)); [auto|].
    destruct (negb (screen_started t)); cbn; auto.
  - unfold run_command_in_foreground, begin_foreground.
    destruct (fg_proc t); [cbn; auto|].
    destruct (negb (has_loop t)); [cbn; auto|].
    destruct bh, ah; cbn; auto.
Qed.

Lemma read_file_written file value dir :
  read_file file ((file, value) :: dir) = Some value.
Proof. cbn. now rewrite String.eqb_refl. Qed.

Lemma read_file_other file other value dir :
  file <> other ->
  read_file file ((other, value) :: dir) = read_file file dir.
Proof.
  intros Hne. cbn. destruct (String.eqb file other) eqn:E; [|reflexivity].
  apply String.eqb_eq in E. contradiction.
Qed.

(** X16: the mode survives a restart.  Starting with no mode chosen,
    after any sequence of [set_rich], [toggle_rich], keys, redraws and
    foreground commands, [get_initial_rich_mode] answers the mode the
    console is in, whatever the state directory held before and whatever
    the legacy "rich-mode" file says. *)
Theorem rich_mode_survives_restart ops t0 b :
  rich_mode t0 = None ->
  rich_mode (apply_ops ops t0) = Some b ->
  get_initial_rich_mode (apply_ops ops t0) = JBool b.
Proof.
  intros Hnone.
  assert (Hsaved : forall b, rich_mode t0 = Some b ->
            read_file (rich_mode_file t0) (state_dir t0) = Some (JBool b)).
  { intros b0 H. congruence. }
  clear Hnone. revert t0 Hsaved b. unfold apply_ops.
  induction ops as [|op ops IH]; intros t Hsaved b; cbn [fold_left].
  - intros H. unfold get_initial_rich_mode. now rewrite (Hsaved b H).
  - apply IH. intros b1 H1.
    destruct (op_on_mode op t) as (Hs & _ & [[Hm Hd]|(b2 & Hm & Hd)]);
      unfold rich_mode_file; rewrite Hs, Hd; fold (rich_mode_file t).
    + apply Hsaved. congruence.
    + rewrite read_file_written. congruence.
Qed.

Lemma rich_mode_survives_restart_witness :
  get_initial_rich_mode (apply_ops session serial_console) = JBool false.
Proof.
  apply (rich_mode_survives_restart session serial_console false);
    reflexivity.
Defined.

(** X17: the console writes only its own state file: after any sequence
    of operations every other file of the state directory, the legacy
    "rich-mode" file and the file of the other kind of console among
    them, reads as it did before. *)
Theorem only_own_rich_mode_file_written ops t0 file :
  file <> rich_mode_file t0 ->
  read_file file (state_dir (apply_ops ops t0))
  = read_file file (state_dir t0).
Proof.
  revert t0. unfold apply_ops.
  induction ops as [|op ops IH]; intros t Hne; cbn [fold_left];
    [reflexivity|].
  destruct (op_on_mode op t) as (Hs & _ & [[_ Hd]|(b2 & _ & Hd)]).
  - rewrite IH by (unfold rich_mode_file in *; now rewrite Hs).
    now rewrite Hd.
  - rewrite IH by (unfold rich_mode_file in *; now rewrite Hs).
    rewrite Hd. now apply read_file_other.
Qed.

Lemma only_own_rich_mode_file_written_witness :
  read_file "rich-mode-tty" (state_dir (apply_ops session serial_console))
  = read_file "rich-mode-tty" (state_dir serial_console).
Proof.
  apply (only_own_rich_mode_file_written session serial_console
           "rich-mode-tty").
  discriminate.
Defined.

(** ** Keys *)

(** X18: what a key never does.  [unhandled_input] calls [exit] only
    for "ctrl x" in a dry run, and changes the rich mode only on a
    serial console and only for "ctrl t" or "f4"; it never touches the
    foreground process or the state of the screen. *)
Theorem unhandled_input_only_known_keys key t r t' :
  unhandled_input key t = (r, t') ->
  (In Exit (effects t') ->
     In Exit (effects t) \/ (dry_run t = true /\ key = "ctrl x"))
  /\ (rich_mode t' <> rich_mode t ->
        run_on_serial t = true /\ (key = "ctrl t" \/ key = "f4"))
  /\ fg_proc t' = fg_proc t
  /\ screen_started t' = screen_started t.
Proof.
  unfold unhandled_input.
  destruct (dry_run t && String.eqb key "ctrl x") eqn:E1.
  { apply andb_true_iff in E1 as [Hd Hk]. apply String.eqb_eq in Hk.
    intros [= <- <-]. cbn [emit effects rich_mode fg_proc screen_started].
    split; [auto|]. split; [|split; reflexivity]. intros Hne. now destruct Hne. }
  destruct (String.eqb key "f3") eqn:E2.
  { destruct (negb (has_loop t)); intros [= <- <-];
      cbn [emit effects rich_mode fg_proc screen_started].
    - split; [auto|]. split; [|split; reflexivity].
      intros Hne. now destruct Hne.
    - split; [|split; [|split; reflexivity]].
      + intros Hin. apply in_app_or in Hin as [Hin|[Hin|[]]];
          [auto|discriminate].
      + intros Hne. now destruct Hne. }
  destruct (run_on_serial t && _) eqn:E3.
  - apply andb_true_iff in E3 as [Hs Hk]. cbn [existsb] in Hk.
    rewrite !orb_true_iff, !String.eqb_eq in Hk.
    unfold toggle_rich. intros Hrun.
    assert (Ht : t' = snd (set_rich (not_rich (rich_mode t)) t))
      by now rewrite Hrun.
    destruct (set_rich_frame (not_rich (rich_mode t)) t)
      as (_ & _ & Hf & _ & Hst).
    rewrite Ht, Hf, Hst.
    split; [|split; [|split; reflexivity]].
    + unfold set_rich. destruct (same_mode _ _); [cbn; auto|].
      cbv zeta. cbn [emit set_rich_mode write_file has_loop].
      destruct (negb (has_loop t));
        cbn [snd effects emit set_rich_mode write_file]; intros Hin;
        rewrite !in_app_iff in Hin; cbn in Hin;
        repeat match goal with
               | Hor : _ \/ _ |- _ => destruct Hor
               end; try contradiction; try discriminate; auto.
    + intros _. split; [exact Hs|].
      destruct Hk as [Hk|[Hk|Hk]]; [now left|now right|discriminate].
  - intros [= <- <-].
    split; [auto|]. split; [|split; reflexivity]. intros Hne. now destruct Hne.
Qed.

Lemma unhandled_input_only_known_keys_witness :
  (In Exit (effects serial_console) ->
     In Exit (effects serial_console)
     \/ (dry_run serial_console = true /\ "ctrl x" = "ctrl x"))
  /\ (rich_mode serial_console <> rich_mode serial_console ->
        run_on_serial serial_console = true
        /\ ("ctrl x" = "ctrl t" \/ "ctrl x" = "f4"))
  /\ fg_proc serial_console = fg_proc serial_console
  /\ screen_started serial_console = screen_started serial_console.
Proof.
  exact (unhandled_input_only_known_keys "ctrl x" serial_console (Return tt)
           serial_console eq_refl).
Defined.

(** ** Foreground commands *)

(** X19: one foreground command at a time.  While a command started by
    [run_command_in_foreground] is waited for in [proc.communicate()], a
    second call raises and changes nothing, and [redraw_screen] draws
    nothing; once the command is over the foreground slot is free, the
    screen is started again, [redraw_screen] draws, and a further
    command is accepted. *)
Theorem foreground_command_excludes_others cmd before_hook after_hook t t1 :
  begin_foreground cmd before_hook t = (Return tt, t1) ->
  (forall cmd2 hook2,
     begin_foreground cmd2 hook2 t1
     = (Raise (Exc "cannot run two fg processes at once"), t1))
  /\ redraw_screen t1 = t1
  /\ fg_proc (end_foreground after_hook t1) = None
  /\ screen_started (end_foreground after_hook t1) = true
  /\ effects (redraw_screen (end_foreground after_hook t1))
     = effects (end_foreground after_hook t1) ++ [DrawScreen]
  /\ (forall cmd2 hook2,
        fst (begin_foreground cmd2 hook2 (end_foreground after_hook t1))
        = Return tt).
Proof.
  unfold begin_foreground at 1.
  destruct (fg_proc t) eqn:Ef; [discriminate|].
  destruct (negb (has_loop t)) eqn:El; [discriminate|].
  cbv zeta. intros [= <-].
  apply negb_false_iff in El.
  split; [|split; [|split; [|split; [|split]]]].
  - intros cmd2 hook2. unfold begin_foreground.
    destruct before_hook; reflexivity.
  - unfold redraw_screen. destruct before_hook; cbn; now rewrite El.
  - destruct before_hook, after_hook; reflexivity.
  - destruct before_hook, after_hook; reflexivity.
  - unfold redraw_screen.
    destruct before_hook, after_hook; cbn; now rewrite El.
  - intros cmd2 hook2. unfold begin_foreground.
    destruct before_hook, after_hook, hook2; cbn; now rewrite El.
Qed.

Lemma foreground_command_excludes_others_witness :
  (forall cmd2 hook2,
     begin_foreground cmd2 hook2
       (snd (begin_foreground "bash" true serial_console))
     = (Raise (Exc "cannot run two fg processes at once"),
        snd (begin_foreground "bash" true serial_console)))
  /\ redraw_screen (snd (begin_foreground "bash" true serial_console))
     = snd (begin_foreground "bash" true serial_console)
  /\ fg_proc (end_foreground false
                (snd (begin_foreground "bash" true serial_console))) = None
  /\ screen_started (end_foreground false
                       (snd (begin_foreground "bash" true serial_console)))
     = true
  /\ effects (redraw_screen
                (end_foreground false
                   (snd (begin_foreground "bash" true serial_console))))
     = effects (end_foreground false
                  (snd (begin_foreground "bash" true serial_console)))
       ++ [DrawScreen]
  /\ (forall cmd2 hook2,
        fst (begin_foreground cmd2 hook2
               (end_foreground false
                  (snd (begin_foreground "bash" true serial_console))))
        = Return tt).
Proof.
  exact (foreground_command_excludes_others "bash" true false serial_console
           (snd (begin_foreground "bash" true serial_console)) eq_refl).
Defined.

End TerminalProps.
